(** * Log ingestor: work queue, line parser and output writer

    A shallow embedding of [cpp_ingestor/src/main.cpp]:

    - [LogEntry]               the parsed record;
    - [ThreadSafeQueue]        [push], [pop], [mark_finished], histories of
                               calls, and the consumers asleep on [cv_];
    - [parse_line]             the [std::istringstream] based line parser;
    - [OutputWriter]           the constructor and [write];
    - [Sched]                  interleavings of concurrent [write] calls;
    - [read_settings]          the environment variables [main] reads;
    - [Pipeline]               the whole program: [main] and its workers.

    Definitions come first, their properties after.

    [std::string] is [string] (a sequence of 8-bit characters), [int] is [Z],
    [std::queue] is a [list] whose head is the front. *)

From Stdlib Require Import ZArith Ascii String DecimalString DecimalPos.
From stdpp Require Import base list strings.

Open Scope string_scope.
Open Scope list_scope.

(** ** Strings *)

Module Str.

(** [std::string::empty] *)
Definition empty (s : string) : bool :=
  match s with "" => true | String _ _ => false end.

(** Concatenation of a list of strings. *)
Definition cat (l : list string) : string := foldr String.app "" l.

End Str.

(** ** The record *)

Record LogEntry := mkLogEntry {
  timestamp : string;
  level : string;
  service : string;
  message : string;
}.

#[global] Instance LogEntry_eq_dec : EqDecision LogEntry.
Proof. solve_decision. Defined.

(** A default-constructed [LogEntry]: four empty strings. *)
Definition LogEntry_default : LogEntry := mkLogEntry "" "" "" "".

Definition set_timestamp (v : string) (e : LogEntry) : LogEntry :=
  mkLogEntry v (level e) (service e) (message e).
Definition set_level (v : string) (e : LogEntry) : LogEntry :=
  mkLogEntry (timestamp e) v (service e) (message e).
Definition set_service (v : string) (e : LogEntry) : LogEntry :=
  mkLogEntry (timestamp e) (level e) v (message e).
Definition set_message (v : string) (e : LogEntry) : LogEntry :=
  mkLogEntry (timestamp e) (level e) (service e) v.

(** ** ThreadSafeQueue

    Every member function runs its whole body under [mutex_], so the bodies
    are totally ordered and each is one transition of the protected state
    [(queue_, finished_)].  The only place where a body gives the mutex up is
    [cv_.wait(lock, pred)], which is [while (!pred()) wait(lock);]: when the
    predicate is false the caller sleeps with the state untouched, and it
    evaluates the predicate again, under the mutex, when it wakes.  [pop]
    therefore has three outcomes: it waits, it returns [false], or it
    returns [true] with the front record. *)

Record ThreadSafeQueue := mkQueue {
  queue_ : list LogEntry;
  finished_ : bool;
}.

(** The state after default construction: [finished_ = false], empty queue. *)
Definition ThreadSafeQueue_new : ThreadSafeQueue := mkQueue [] false.

Definition queue_empty (q : ThreadSafeQueue) : bool :=
  match queue_ q with [] => true | _ :: _ => false end.

Definition push (entry : LogEntry) (q : ThreadSafeQueue) : ThreadSafeQueue :=
  mkQueue (queue_ q ++ [entry]) (finished_ q).

Inductive pop_outcome :=
| pop_waits
| pop_returns (ret : bool) (out : LogEntry) (q : ThreadSafeQueue).

(** The predicate handed to [cv_.wait]. *)
Definition pop_ready (q : ThreadSafeQueue) : bool :=
  finished_ q || negb (queue_empty q).

Definition pop (q : ThreadSafeQueue) (out : LogEntry) : pop_outcome :=
  if pop_ready q then
    match queue_ q with
    | [] => pop_returns false out q
    | front :: rest => pop_returns true front (mkQueue rest (finished_ q))
    end
  else pop_waits.

Definition mark_finished (q : ThreadSafeQueue) : ThreadSafeQueue :=
  mkQueue (queue_ q) true.

(** "Exhausted" is the [false] return of [pop]. *)
Definition exhausted (o : pop_outcome) : Prop :=
  ∃ out q, o = pop_returns false out q.

(** *** Histories of calls

    A history is the order in which the critical sections of the calls made
    by the producer and by the consumers took the mutex.  A consumer that
    found the predicate false shows up as [ev_wait]; its next evaluation of
    the predicate is a later [c_pop] of the same consumer. *)

Inductive call :=
| c_push (entry : LogEntry)
| c_pop (consumer : nat) (out : LogEntry)
| c_mark_finished.

#[global] Instance call_eq_dec : EqDecision call.
Proof. solve_decision. Defined.

Inductive event :=
| ev_push (entry : LogEntry)
| ev_pop (consumer : nat) (ret : bool) (out : LogEntry)
| ev_wait (consumer : nat)
| ev_mark_finished.

Definition do_call (c : call) (q : ThreadSafeQueue) : event * ThreadSafeQueue :=
  match c with
  | c_push entry => (ev_push entry, push entry q)
  | c_pop consumer out =>
      match pop q out with
      | pop_waits => (ev_wait consumer, q)
      | pop_returns ret out' q' => (ev_pop consumer ret out', q')
      end
  | c_mark_finished => (ev_mark_finished, mark_finished q)
  end.

Fixpoint run (cs : list call) (q : ThreadSafeQueue) : list event * ThreadSafeQueue :=
  match cs with
  | [] => ([], q)
  | c :: cs' =>
      let '(ev, q1) := do_call c q in
      let '(evs, q2) := run cs' q1 in
      (ev :: evs, q2)
  end.

(** The records pushed, and the records handed out, in history order. *)
Definition pushed (evs : list event) : list LogEntry :=
  omap (λ ev, match ev with ev_push e => Some e | _ => None end) evs.

Definition popped (evs : list event) : list LogEntry :=
  omap (λ ev, match ev with ev_pop _ true e => Some e | _ => None end) evs.

(** *** Consumers asleep on [cv_]

    The histories above leave out who is asleep.  Here the state also has
    the consumers blocked inside [cv_.wait]: a consumer that finds the
    predicate false joins them and cannot move until [notify_one] or
    [notify_all] takes it out, or it wakes spuriously; once out, its next
    move is to evaluate the predicate again, which is [m_pop] again. *)

Record monitor := mkMonitor {
  the_queue : ThreadSafeQueue;
  sleeping : list nat;
}.

Definition monitor_new : monitor := mkMonitor ThreadSafeQueue_new [].

(** [cv_.notify_one()] wakes one sleeper if there is any; which one is not
    specified, here the one at position [pick]. *)
Definition notify_one (pick : nat) (sl : list nat) : list nat :=
  delete (pick `mod` length sl)%nat sl.

(** [cv_.notify_all()] wakes them all. *)
Definition notify_all (sl : list nat) : list nat := [].

Inductive mcall :=
| m_push (entry : LogEntry) (pick : nat)
| m_pop (consumer : nat) (out : LogEntry)
| m_spurious (consumer : nat)
| m_mark_finished.

#[global] Instance mcall_eq_dec : EqDecision mcall.
Proof. solve_decision. Defined.

Definition monitor_step (m : mcall) (st : monitor) : option event * monitor :=
  match m with
  | m_push entry pick =>
      (Some (ev_push entry),
       mkMonitor (push entry (the_queue st)) (notify_one pick (sleeping st)))
  | m_pop consumer out =>
      if bool_decide (consumer ∈ sleeping st) then (None, st)
      else
        match pop (the_queue st) out with
        | pop_waits =>
            (Some (ev_wait consumer), mkMonitor (the_queue st) (consumer :: sleeping st))
        | pop_returns ret out' q' =>
            (Some (ev_pop consumer ret out'), mkMonitor q' (sleeping st))
        end
  | m_spurious consumer =>
      (None, mkMonitor (the_queue st) (filter (λ n, n ≠ consumer) (sleeping st)))
  | m_mark_finished =>
      (Some ev_mark_finished,
       mkMonitor (mark_finished (the_queue st)) (notify_all (sleeping st)))
  end.

Fixpoint monitor_run (ms : list mcall) (st : monitor) : list event * monitor :=
  match ms with
  | [] => ([], st)
  | m :: ms' =>
      let '(ev, st1) := monitor_step m st in
      let '(evs, st2) := monitor_run ms' st1 in
      (option_list ev ++ evs, st2)
  end.

(** ** std::istringstream

    The stream is the unread part of its buffer and two state bits
    ([badbit] is never set on a string stream that only reads).  Whitespace
    is [std::isspace] in the classic "C" locale, the locale of a stream in a
    program that never calls [std::locale::global]. *)

Definition isspace (c : ascii) : bool :=
  match c with
  | " " | "009" | "010" | "011" | "012" | "013" => true
  | _ => false
  end%char.

Record istringstream := mkStream {
  rdbuf : string;
  eofbit : bool;
  failbit : bool;
}.

Definition istringstream_new (s : string) : istringstream := mkStream s false false.

Definition good (iss : istringstream) : bool := negb (eofbit iss) && negb (failbit iss).

(** [operator!] and [operator bool] of the stream test [fail()]. *)
Definition fail (iss : istringstream) : bool := failbit iss.

(** Discard the leading run of whitespace. *)
Fixpoint skipws (s : string) : string :=
  match s with
  | "" => ""
  | String c s' => if isspace c then skipws s' else s
  end.

(** [std::istream::sentry] ([istream.sentry]): a stream that is not
    [good()] gets [failbit] and the sentry is false; otherwise, unless
    [noskipws], whitespace is skipped, and reaching the end of the buffer
    while skipping sets [failbit | eofbit] and makes the sentry false. *)
Definition sentry (noskipws : bool) (iss : istringstream) : bool * istringstream :=
  if good iss then
    if noskipws then (true, iss)
    else
      match skipws (rdbuf iss) with
      | "" => (false, mkStream "" true true)
      | String c s => (true, mkStream (String c s) (eofbit iss) (failbit iss))
      end
  else (false, mkStream (rdbuf iss) (eofbit iss) true).

(** The characters up to the next whitespace character or the end of the
    buffer, and what is left. *)
Fixpoint scan_token (s : string) : string * string :=
  match s with
  | "" => ("", "")
  | String c s' =>
      if isspace c then ("", s)
      else let '(tok, rest) := scan_token s' in (String c tok, rest)
  end.

(** [operator>>(std::istream&, std::string&)] ([string.io]): "after
    constructing a sentry object, if the sentry converts to true, calls
    [str.erase()] and then extracts characters", up to the next whitespace
    character or the end of the buffer.  So [str] is touched only past a
    true sentry; running into the end of the buffer sets [eofbit];
    extracting nothing sets [failbit]. *)
Definition extract (iss : istringstream) (str : string) : istringstream * string :=
  let '(ok, iss1) := sentry false iss in
  if ok then
    let '(tok, rest) := scan_token (rdbuf iss1) in
    (mkStream rest (eofbit iss1 || Str.empty rest) (failbit iss1 || Str.empty tok), tok)
  else (iss1, str).

(** The characters before the first newline, what is left after it, and
    whether the end of the buffer was reached before a newline. *)
Fixpoint scan_line (s : string) : string * string * bool :=
  match s with
  | "" => ("", "", true)
  | String c s' =>
      if Ascii.eqb c "010" then ("", s', false)
      else let '(l, rest, at_eof) := scan_line s' in (String c l, rest, at_eof)
  end.

(** [std::getline(std::istream&, std::string&)]: the sentry does not skip
    whitespace; past a true sentry [str] is erased, then filled up to the
    newline, which is extracted and dropped, or up to the end of the buffer,
    which sets [eofbit]; [failbit] is set when not even a newline was
    extracted. *)
Definition getline (iss : istringstream) (str : string) : istringstream * string :=
  let '(ok, iss1) := sentry true iss in
  if ok then
    let '(l, rest, at_eof) := scan_line (rdbuf iss1) in
    (mkStream rest (eofbit iss1 || at_eof) (failbit iss1 || (at_eof && Str.empty l)), l)
  else (iss1, str).

(** [rest.erase(0, 1)] guarded by [!rest.empty() && rest[0] == ' ']. *)
Definition erase_leading_space (rest : string) : string :=
  match rest with
  | String c r => if Ascii.eqb c " " then r else rest
  | "" => rest
  end.

(** The stream after a successful extraction that left [rest] unread:
    [eofbit] is set exactly when the token ran up to the end. *)
Definition after_extract (rest : string) : istringstream :=
  mkStream rest (Str.empty rest) false.

(** The stream after a failed extraction. *)
Definition failed : istringstream := mkStream "" true true.

(** The next token of a buffer and what follows it, if there is one. *)
Definition next_token (s : string) : option (string * string) :=
  match skipws s with
  | "" => None
  | String c r => Some (scan_token (String c r))
  end.

(** ** parse_line

    [entry] is the caller's record, passed by reference: the result is the
    returned flag and the record as the call leaves it. *)

Definition parse_line (line : string) (entry : LogEntry) : bool * LogEntry :=
  let iss := istringstream_new line in
  let date := "" in
  let time := "" in
  let '(iss, date) := extract iss date in
  let '(iss, time) := extract iss time in
  let '(iss, lv) := extract iss (level entry) in
  let entry := set_level lv entry in
  let '(iss, sv) := extract iss (service entry) in
  let entry := set_service sv entry in
  if fail iss then (false, entry)
  else
    let rest := "" in
    let '(iss, rest) := getline iss rest in
    let rest := erase_leading_space rest in
    let entry := set_timestamp (date +:+ " " +:+ time) entry in
    let entry := set_message rest entry in
    (true, entry).

(** The newline character. *)
Definition nl : string := String "010" "".

(** The body of the read loop of [main] for one line: a fresh [LogEntry],
    [parse_line], then either the diagnostic on [std::cerr] or [push]. *)
Definition ingest_line (line : string) (st : list string * ThreadSafeQueue)
  : list string * ThreadSafeQueue :=
  let '(cerr, q) := st in
  let entry := LogEntry_default in
  let '(ok, entry) := parse_line line entry in
  if negb ok then (cerr ++ ["Skipping malformed line: " +:+ line +:+ nl], q)
  else (cerr, push entry q).

(** The Record a line produces, as [main] sees it. *)
Definition parse_record (line : string) : option LogEntry :=
  let '(ok, entry) := parse_line line LogEntry_default in
  if ok then Some entry else None.

(** *** The spec's reading of a line

    The tokens of a line are its maximal runs of non-whitespace characters
    ([String.words] of stdpp splits on the same six characters), and what
    follows the first [n] tokens is reached by dropping [n] times a run of
    whitespace and a run of non-whitespace. *)
Definition tokens (line : string) : list string := String.words line.

Fixpoint after_tokens (n : nat) (line : string) : string :=
  match n with
  | O => line
  | S n' => after_tokens n' (snd (scan_token (skipws line)))
  end.

Fixpoint has_newline (s : string) : bool :=
  match s with
  | "" => false
  | String c s' => Ascii.eqb c "010" || has_newline s'
  end.

Fixpoint all_space (s : string) : bool :=
  match s with
  | "" => true
  | String c s' => isspace c && all_space s'
  end.

Fixpoint no_space (s : string) : bool :=
  match s with
  | "" => true
  | String c s' => negb (isspace c) && no_space s'
  end.

(** A token: non-empty, free of whitespace.  A gap: non-empty, whitespace
    only.  A tail: empty, or beginning with a whitespace character. *)
Definition is_token (s : string) : bool := negb (Str.empty s) && no_space s.
Definition is_gap (s : string) : bool := negb (Str.empty s) && all_space s.
Definition is_tail (s : string) : bool :=
  match s with "" => true | String c _ => isspace c end.

(** ** Output streams

    An [std::ostream] is the bytes still in its buffer and the bytes its
    destination has received, in order. *)

Record ostream := mkOstream {
  pending : string;
  delivered : string;
}.

Definition ostream_new : ostream := mkOstream "" "".

Inductive op :=
| op_put (s : string)
| op_flush.

Definition apply_op (os : ostream) (o : op) : ostream :=
  match o with
  | op_put s => mkOstream (pending os +:+ s) (delivered os)
  | op_flush => mkOstream "" (delivered os +:+ pending os)
  end.

(** Everything inserted so far, in insertion order. *)
Definition inserted (os : ostream) : string := delivered os +:+ pending os.

(** [operator<<(int)] with the default flags: signed decimal. *)
Definition show_int (n : Z) : string := NilZero.string_of_int (Z.to_int n).

(** ** OutputWriter *)

(** What [target_] points to: [&std::cout] or [&file_]. *)
Inductive target := to_cout | to_file.

Record OutputWriter := mkWriter {
  file_ : option string;
  target_ : target;
}.

Definition target_is_cout (w : OutputWriter) : bool :=
  match target_ w with to_cout => true | to_file => false end.

(** The constructor.  Whether [file_.open(path, std::ios::app)] succeeds is
    a fact of the file system, given here by [can_open].  The second
    component is what the constructor sends to [std::cerr], one element per
    output statement. *)
Definition OutputWriter_new (can_open : string → bool) (path : string)
  : OutputWriter * list string :=
  if negb (Str.empty path) then
    if can_open path then (mkWriter (Some path) to_file, [])
    else (mkWriter None to_cout,
          ["Unable to open output file: " +:+ path +:+ ". Falling back to stdout." +:+ nl])
  else (mkWriter None to_cout, []).

(** The stream operations of one [write], in program order. *)
Definition write_ops (w : OutputWriter) (entry : LogEntry) (worker_id : Z) : list op :=
  [op_put "["; op_put (timestamp entry); op_put "] ";
   op_put (level entry); op_put " ";
   op_put (service entry); op_put " ";
   op_put (message entry)]
  ++ (if target_is_cout w
      then [op_put " (worker "; op_put (show_int worker_id); op_put ")"]
      else [])
  ++ [op_put nl; op_flush].

(** The two streams a writer can point to. *)
Record streams := mkStreams {
  cout : ostream;
  fout : ostream;
}.

Definition on_target (t : target) (f : ostream → ostream) (st : streams) : streams :=
  match t with
  | to_cout => mkStreams (f (cout st)) (fout st)
  | to_file => mkStreams (cout st) (f (fout st))
  end.

Definition get_target (t : target) (st : streams) : ostream :=
  match t with to_cout => cout st | to_file => fout st end.

(** [write] run by one thread on its own: the writer is not modified (it is
    returned to make that a statement), the operations go to [*target_]. *)
Definition write (w : OutputWriter) (entry : LogEntry) (worker_id : Z) (st : streams)
  : OutputWriter * streams :=
  (w, on_target (target_ w) (λ os, foldl apply_op os (write_ops w entry worker_id)) st).

(** The line the spec describes. *)
Definition rendered (console : bool) (entry : LogEntry) (worker_id : Z) : string :=
  "[" +:+ timestamp entry +:+ "] " +:+ level entry +:+ " " +:+ service entry
  +:+ " " +:+ message entry
  +:+ (if console then " (worker " +:+ show_int worker_id +:+ ")" else "")
  +:+ nl.

(** A sequence of [write] calls on one writer, one after the other. *)
Definition write_all (calls : list (LogEntry * Z)) (ws : OutputWriter * streams)
  : OutputWriter * streams :=
  foldl (λ ws c, write ws.1 c.1 c.2 ws.2) ws calls.

(** The text an operation inserts. *)
Definition text (o : op) : string :=
  match o with op_put s => s | op_flush => "" end.

Definition texts (ops : list op) : string := Str.cat (text <$> ops).

(** ** Concurrent [write] calls

    Threads share one [OutputWriter], hence one [mutex_] and one stream
    [*target_].  A thread that calls [write] takes [mutex_] (the
    [std::lock_guard] constructor), performs the stream operations of
    [write_ops] one at a time, and releases [mutex_] (the destructor).  The
    scheduler picks, at every step, the thread that moves next; it may also
    let the stream pass some of its buffered bytes on to the destination, as
    a stream does when its buffer fills up. *)

Module Sched.

Inductive instr :=
| i_lock
| i_op (o : op)
| i_unlock.

Definition write_code (w : OutputWriter) (entry : LogEntry) (worker_id : Z) : list instr :=
  i_lock :: (i_op <$> write_ops w entry worker_id) ++ [i_unlock].

(** The same operations with no [std::lock_guard], for comparison. *)
Definition write_code_unlocked (w : OutputWriter) (entry : LogEntry) (worker_id : Z)
  : list instr :=
  i_op <$> write_ops w entry worker_id.

(** One call of [write]: its two arguments. *)
Record wcall := mkCall {
  wc_entry : LogEntry;
  wc_worker : Z;
}.

(** A thread that makes the given calls one after the other. *)
Definition thread_code (w : OutputWriter) (calls : list wcall) : list instr :=
  calls ≫= (λ c, write_code w (wc_entry c) (wc_worker c)).

Record config := mkConfig {
  mutex_ : option nat;
  out : ostream;
  pool : list (list instr);
}.

Definition init (w : OutputWriter) (os0 : ostream) (callss : list (list wcall)) : config :=
  mkConfig None os0 (thread_code w <$> callss).

Inductive action :=
| a_thread (i : nat)
| a_spill (k : nat).

Fixpoint split_at (k : nat) (s : string) : string * string :=
  match k, s with
  | S k', String c s' => let '(a, b) := split_at k' s' in (String c a, b)
  | _, _ => ("", s)
  end.

(** The stream hands the first [k] buffered bytes to the destination. *)
Definition spill (k : nat) (os : ostream) : ostream :=
  let '(a, b) := split_at k (pending os) in
  mkOstream b (delivered os +:+ a).

(** One step.  A thread at [i_lock] while the mutex is taken stays where
    it is; a thread with no code left, or an index outside the pool, does
    nothing. *)
Definition step (c : config) (a : action) : config :=
  match a with
  | a_spill k => mkConfig (mutex_ c) (spill k (out c)) (pool c)
  | a_thread i =>
      match pool c !! i with
      | Some (i_lock :: code) =>
          match mutex_ c with
          | None => mkConfig (Some i) (out c) (<[i:=code]> (pool c))
          | Some _ => c
          end
      | Some (i_op o :: code) =>
          mkConfig (mutex_ c) (apply_op (out c) o) (<[i:=code]> (pool c))
      | Some (i_unlock :: code) =>
          mkConfig None (out c) (<[i:=code]> (pool c))
      | Some [] | None => c
      end
  end.

Definition exec (sched : list action) (c : config) : config := foldl step c sched.

Definition all_done (c : config) : bool :=
  forallb (λ code, match code with [] => true | _ => false end) (pool c).

(** A thread is inside the critical section of [write] when its next
    instruction is a stream operation or the release of the mutex. *)
Definition in_critical (code : list instr) : bool :=
  match code with
  | i_op _ :: _ | i_unlock :: _ => true
  | _ => false
  end.

(** The lines of a sequence of calls, one after the other. *)
Definition lines (w : OutputWriter) (calls : list wcall) : string :=
  Str.cat ((λ c, rendered (target_is_cout w) (wc_entry c) (wc_worker c)) <$> calls).

(** The schedule that runs every thread to its end, one thread after the
    other: [n] steps for each of the threads [0 .. k-1]. *)
Definition sequential (k n : nat) : list action :=
  seq 0 k ≫= (λ i, replicate n (a_thread i)).

(** The instructions the threads have yet to run. *)
Definition remaining (c : config) : nat := sum_list (length <$> pool c).

(** The line and the stream operations of a call. *)
Definition line_of (w : OutputWriter) (call : wcall) : string :=
  rendered (target_is_cout w) (wc_entry call) (wc_worker call).

Definition ops_of (w : OutputWriter) (call : wcall) : list op :=
  write_ops w (wc_entry call) (wc_worker call).

(** What holds of a configuration the scheduler can reach from
    [init w os0 callss].  [done] are the calls that have returned, in the
    order they took the mutex; [todo] are, thread by thread, the calls not
    begun.  A thread that does not hold the mutex stands between two calls.
    The holder is inside a call, with the operations [pre] performed and
    [post] to come; everything inserted is the lines of [done] followed by
    what [pre] inserted. *)
Definition inv (w : OutputWriter) (os0 : ostream) (callss : list (list wcall))
    (c : config) : Prop :=
  ∃ done todo,
    length todo = length (pool c)
    ∧ (∀ i code r, pool c !! i = Some code → todo !! i = Some r →
                   mutex_ c ≠ Some i → code = thread_code w r)
    ∧ match mutex_ c with
      | None =>
          done ++ concat todo ≡ₚ concat callss
          ∧ inserted (out c) = inserted os0 +:+ lines w done
          ∧ (done ≠ [] → pending (out c) = "")
      | Some h =>
          ∃ call pre post r,
            todo !! h = Some r
            ∧ pool c !! h = Some ((i_op <$> post) ++ i_unlock :: thread_code w r)
            ∧ ops_of w call = pre ++ post
            ∧ done ++ call :: concat todo ≡ₚ concat callss
            ∧ inserted (out c) = inserted os0 +:+ lines w done +:+ texts pre
            ∧ (post = [] → pending (out c) = "")
      end.

End Sched.

(** ** main: settings

    [std::getenv] is a function from names to optional values; a variable
    that is set to the empty string is [Some ""]. *)

(** The value of a decimal digit, [c - '0'] where [isdigit(c)]. *)
Definition digit (c : ascii) : option Z :=
  let code := Z.of_N (N_of_ascii c) in
  if (48 <=? code)%Z && (code <=? 57)%Z then Some (code - 48)%Z else None.

(** The value of the longest run of decimal digits at the start of [s],
    continuing from [acc]. *)
Fixpoint atoi_digits (acc : Z) (s : string) : Z :=
  match s with
  | "" => acc
  | String c s' =>
      match digit c with
      | Some d => atoi_digits (10 * acc + d) s'
      | None => acc
      end
  end.

(** [std::atoi]: leading whitespace, an optional sign, then decimal digits
    up to the first character that is not one; [0] when there is no digit.
    This is the number the text denotes: C gives the call a defined result
    only when that number fits an [int] ([fits_int]). *)
Definition atoi (s : string) : Z :=
  match skipws s with
  | String "-" r => - atoi_digits 0 r
  | String "+" r => atoi_digits 0 r
  | r => atoi_digits 0 r
  end%Z.




Record settings := mkSettings {
  log_file : string;
  worker_count : Z;
  output_path : string;
}.

(** The first six lines of [main]. *)
Definition read_settings (getenv : string → option string) : settings :=
  let file_env := getenv "LOG_FILE_PATH" in
  let log_file := match file_env with Some v => v | None => "/data/logs/logs.txt" end in
  let worker_env := getenv "WORKER_COUNT" in
  let worker_count :=
    match worker_env with Some v => Z.max 1 (atoi v) | None => 4%Z end in
  let output_env := getenv "OUTPUT_FILE_PATH" in
  let output_path := match output_env with Some v => v | None => "" end in
  mkSettings log_file worker_count output_path.

(** ** main: the lines of the input file

    What [while (std::getline(infile, line))] goes through, read off the
    content of the file: the pieces between newlines, without a last empty
    piece when the content ends in a newline. *)
Fixpoint file_lines (content : string) : list string :=
  match content with
  | "" => []
  | String c s' =>
      if Ascii.eqb c "010" then "" :: file_lines s'
      else
        match file_lines s' with
        | [] => [String c ""]
        | l :: ls => String c l :: ls
        end
  end.

(** The Records of a list of lines, and the diagnostics for the lines that
    give none, both in line order. *)
Definition records_of (lines : list string) : list LogEntry := omap parse_record lines.

Definition skip_diag (line : string) : string :=
  "Skipping malformed line: " +:+ line +:+ nl.

Definition diags_of (lines : list string) : list string :=
  omap (λ line, match parse_record line with
                | None => Some (skip_diag line)
                | Some _ => None
                end) lines.

(** ** The whole program: [main] and the workers

    The main thread and the worker threads move one at a time, as the
    scheduler picks them.  A move of a worker is one iteration half of
    [worker_loop]: one [pop] attempt, or one [write]; both are critical
    sections (of the queue's mutex and of the writer's), so each is one
    transition.  A move of the main thread is one statement group of
    [main]: opening the input, one turn of the read loop, [mark_finished],
    the joins, the last message.  The threads are created before the input
    is opened; a thread that has not been scheduled yet is a thread that has
    not been created yet, so the pool starts with all of them at [pop]. *)

Module Pipeline.

(** Where a worker is: about to evaluate the predicate of [pop] (on entry
    or after waking), asleep in [cv_.wait], about to [write] the record it
    popped, or out of its loop. *)
Inductive wpc := at_pop | asleep | at_write | exited.

(** A worker: where it is and its local [entry]. *)
Record worker := mkWorker {
  w_pc : wpc;
  w_entry : LogEntry;
}.

(** Where [main] is: about to open the input; at the test of the read
    loop, with [infile] and [line]; about to call [mark_finished]; at the
    joins; returned.  [code] is the value [main] is going to return. *)
Inductive mpc :=
| m_open
| m_loop (infile : istringstream) (line : string)
| m_mark (code : Z)
| m_join (code : Z)
| m_exit (code : Z).

Record sys := mkSys {
  s_conf : settings;
  s_main : mpc;
  s_queue : ThreadSafeQueue;
  s_workers : list worker;
  s_writer : OutputWriter;
  s_out : streams;
  s_cerr : list string;
}.

(** [main] up to and including the creation of the threads. *)
Definition boot (getenv : string → option string) (can_open : string → bool)
    (st0 : streams) : sys :=
  let conf := read_settings getenv in
  let '(writer, diag) := OutputWriter_new can_open (output_path conf) in
  mkSys conf m_open ThreadSafeQueue_new
    (replicate (Z.to_nat (worker_count conf)) (mkWorker at_pop LogEntry_default))
    writer st0 diag.

Definition is_asleep (w : worker) : bool :=
  match w_pc w with asleep => true | _ => false end.

Definition is_exited (w : worker) : bool :=
  match w_pc w with exited => true | _ => false end.

(** The workers asleep on [cv_], by index. *)
Definition sleepers (ws : list worker) : list nat :=
  List.filter (λ i, match ws !! i with Some w => is_asleep w | None => false end)
    (seq 0 (length ws)).

Definition wake (w : worker) : worker :=
  if is_asleep w then mkWorker at_pop (w_entry w) else w.

(** [cv_.notify_one()]: one of the sleepers, the one the scheduler picks,
    goes back to the predicate; nothing happens when nobody sleeps. *)
Definition wake_one (pick : nat) (ws : list worker) : list worker :=
  match sleepers ws !! (pick `mod` length (sleepers ws))%nat with
  | Some i => alter wake i ws
  | None => ws
  end.

(** [cv_.notify_all()]. *)
Definition wake_all (ws : list worker) : list worker := wake <$> ws.

Definition complete_msg : string := "Ingestion complete." +:+ nl.

Definition open_diag (path : string) : string :=
  "Unable to open log file: " +:+ path +:+ nl.

(** One move of the main thread.  [fs] gives the content of the files
    that open for reading.  At the joins the thread stays put until every
    worker is out of its loop. *)
Definition main_step (fs : string → option string) (pick : nat) (s : sys) : sys :=
  match s_main s with
  | m_open =>
      match fs (log_file (s_conf s)) with
      | None =>
          mkSys (s_conf s) (m_mark 1) (s_queue s) (s_workers s) (s_writer s) (s_out s)
            (s_cerr s ++ [open_diag (log_file (s_conf s))])
      | Some content =>
          mkSys (s_conf s) (m_loop (istringstream_new content) "") (s_queue s)
            (s_workers s) (s_writer s) (s_out s) (s_cerr s)
      end
  | m_loop infile line =>
      let '(infile, line) := getline infile line in
      if fail infile then
        mkSys (s_conf s) (m_mark 0) (s_queue s) (s_workers s) (s_writer s) (s_out s)
          (s_cerr s)
      else
        let entry := LogEntry_default in
        let '(ok, entry) := parse_line line entry in
        if negb ok then
          mkSys (s_conf s) (m_loop infile line) (s_queue s) (s_workers s) (s_writer s)
            (s_out s) (s_cerr s ++ [skip_diag line])
        else
          mkSys (s_conf s) (m_loop infile line) (push entry (s_queue s))
            (wake_one pick (s_workers s)) (s_writer s) (s_out s) (s_cerr s)
  | m_mark code =>
      mkSys (s_conf s) (m_join code) (mark_finished (s_queue s))
        (wake_all (s_workers s)) (s_writer s) (s_out s) (s_cerr s)
  | m_join code =>
      if forallb is_exited (s_workers s) then
        let out :=
          if Z.eqb code 0
          then mkStreams (apply_op (cout (s_out s)) (op_put complete_msg)) (fout (s_out s))
          else s_out s in
        mkSys (s_conf s) (m_exit code) (s_queue s) (s_workers s) (s_writer s) out
          (s_cerr s)
      else s
  | m_exit _ => s
  end.

(** One move of worker [i]: [worker_loop] with [id = i]. *)
Definition worker_step (i : nat) (s : sys) : sys :=
  match s_workers s !! i with
  | Some (mkWorker at_pop entry) =>
      match pop (s_queue s) entry with
      | pop_waits =>
          mkSys (s_conf s) (s_main s) (s_queue s)
            (<[i:=mkWorker asleep entry]> (s_workers s)) (s_writer s) (s_out s) (s_cerr s)
      | pop_returns true out q' =>
          mkSys (s_conf s) (s_main s) q'
            (<[i:=mkWorker at_write out]> (s_workers s)) (s_writer s) (s_out s) (s_cerr s)
      | pop_returns false out q' =>
          mkSys (s_conf s) (s_main s) q'
            (<[i:=mkWorker exited out]> (s_workers s)) (s_writer s) (s_out s) (s_cerr s)
      end
  | Some (mkWorker at_write entry) =>
      let '(writer, out) := write (s_writer s) entry (Z.of_nat i) (s_out s) in
      mkSys (s_conf s) (s_main s) (s_queue s)
        (<[i:=mkWorker at_pop entry]> (s_workers s)) writer out (s_cerr s)
  | Some (mkWorker asleep _) | Some (mkWorker exited _) | None => s
  end.

Inductive turn :=
| a_main (pick : nat)
| a_worker (i : nat)
| a_spurious (i : nat).

Definition sys_step (fs : string → option string) (s : sys) (a : turn) : sys :=
  match a with
  | a_main pick => main_step fs pick s
  | a_worker i => worker_step i s
  | a_spurious i =>
      mkSys (s_conf s) (s_main s) (s_queue s) (alter wake i (s_workers s)) (s_writer s)
        (s_out s) (s_cerr s)
  end.

Definition sys_run (fs : string → option string) (sched : list turn) (s : sys) : sys :=
  foldl (sys_step fs) s sched.

(** The record a worker holds between its [pop] and its [write]. *)
Definition hand (i : nat) (w : worker) : list Sched.wcall :=
  match w_pc w with
  | at_write => [Sched.mkCall (w_entry w) (Z.of_nat i)]
  | _ => []
  end.

Fixpoint in_hand_from (k : nat) (ws : list worker) : list Sched.wcall :=
  match ws with
  | [] => []
  | w :: ws' => hand k w ++ in_hand_from (S k) ws'
  end.

Definition in_hand (ws : list worker) : list Sched.wcall := in_hand_from 0 ws.

(** The lines [main] has yet to read. *)
Definition lines_ahead (fs : string → option string) (conf : settings) (m : mpc)
  : list string :=
  match m with
  | m_open =>
      match fs (log_file conf) with Some content => file_lines content | None => [] end
  | m_loop infile _ => if good infile then file_lines (rdbuf infile) else []
  | _ => []
  end.

(** What [main] has yet to send to [std::cerr]. *)
Definition cerr_ahead (fs : string → option string) (conf : settings) (m : mpc)
  : list string :=
  match m with
  | m_open =>
      match fs (log_file conf) with
      | Some content => diags_of (file_lines content)
      | None => [open_diag (log_file conf)]
      end
  | _ => diags_of (lines_ahead fs conf m)
  end.

(** The value [main] returns. *)
Definition exit_code (fs : string → option string) (conf : settings) : Z :=
  match fs (log_file conf) with Some _ => 0%Z | None => 1%Z end.

Definition after_mark (m : mpc) : bool :=
  match m with m_join _ | m_exit _ => true | _ => false end.

#[global] Instance wpc_eq_dec : EqDecision wpc.
Proof. solve_decision. Defined.

(** How many workers are at [pc]. *)
Definition count_pc (pc : wpc) (ws : list worker) : nat :=
  sum_list ((λ w, if bool_decide (w_pc w = pc) then 1 else 0)%nat <$> ws).

(** What [main] sends to [std::cout] on its way out. *)
Definition final_msg (m : mpc) : string :=
  match m with
  | m_exit code => if Z.eqb code 0 then complete_msg else ""
  | _ => ""
  end.

Definition hand_at (ws : list worker) (i : nat) : list Sched.wcall :=
  match ws !! i with Some w => hand i w | None => [] end.

(** The calls of worker [i] among [calls], in order. *)
Definition by_worker (i : nat) (calls : list Sched.wcall) : list Sched.wcall :=
  filter (λ c, Sched.wc_worker c = Z.of_nat i) calls.

(** A bound on the moves still to come: the characters [main] has yet
    to read and its statements after the loop, the records queued, and what
    each worker has to do before its next [pop]. *)
Definition weight (w : worker) : nat :=
  match w_pc w with
  | at_write => 2
  | at_pop | asleep => 1
  | exited => 0
  end.

Definition stream_left (infile : istringstream) : nat :=
  if good infile then S (String.length (rdbuf infile)) else 0.



(** *** What every reachable state satisfies

    [ctl]: the settings, the writer and the number of workers do not
    change; [finished_] is set exactly from [mark_finished] on; nobody
    sleeps on a finished queue; a worker is out of its loop only on a
    finished, empty queue; [main] is past the joins only when every worker
    is out; the value [main] returns is fixed by whether the input opened. *)
Definition main_code_ok (fs : string → option string) (conf : settings) (m : mpc)
  : Prop :=
  match m with
  | m_open => True
  | m_loop _ _ => exit_code fs conf = 0%Z
  | m_mark code | m_join code | m_exit code => code = exit_code fs conf
  end.

Definition ctl (fs : string → option string) (conf : settings) (w0 : OutputWriter)
    (s : sys) : Prop :=
  s_conf s = conf
  ∧ s_writer s = w0
  ∧ length (s_workers s) = Z.to_nat (worker_count conf)
  ∧ finished_ (s_queue s) = after_mark (s_main s)
  ∧ (finished_ (s_queue s) = true →
     ∀ i w, s_workers s !! i = Some w → is_asleep w = false)
  ∧ (∀ i w, s_workers s !! i = Some w → is_exited w = true →
            finished_ (s_queue s) = true ∧ queue_ (s_queue s) = [])
  ∧ main_code_ok fs conf (s_main s)
  ∧ (∀ code, s_main s = m_exit code → forallb is_exited (s_workers s) = true).

(** [wk]: while a worker sleeps, the records queued are no more than the
    workers on their way to the predicate of [pop]. *)
Definition wk (s : sys) : Prop :=
  (0 < count_pc asleep (s_workers s))%nat →
  (length (queue_ (s_queue s)) ≤ count_pc at_pop (s_workers s))%nat.

(** [dat]: [popped] are the calls [(record, worker)] in the order the
    records left the queue, [written] the calls in the order they were
    written.  The records popped, queued and yet to be read are the Records
    of the input, in input order; what was popped is written or in a
    worker's hand; each worker writes in the order it popped; the streams
    hold the lines of [written], and the last message of [main]. *)
Definition dat (fs : string → option string) (conf : settings) (st0 : streams)
    (s : sys) : Prop :=
  ∃ popped written : list Sched.wcall,
    s_conf s = conf
    ∧ (Sched.wc_entry <$> popped) ++ queue_ (s_queue s)
        ++ records_of (lines_ahead fs conf (s_main s))
      = records_of (lines_ahead fs conf m_open)
    ∧ written ++ in_hand (s_workers s) ≡ₚ popped
    ∧ (∀ i, by_worker i written ++ hand_at (s_workers s) i = by_worker i popped)
    ∧ (∀ c, c ∈ popped →
            ∃ i, (i < length (s_workers s))%nat ∧ Sched.wc_worker c = Z.of_nat i)
    ∧ inserted (cout (s_out s))
      = inserted (cout st0)
        +:+ (if target_is_cout (s_writer s) then Sched.lines (s_writer s) written else "")
        +:+ final_msg (s_main s)
    ∧ inserted (fout (s_out s))
      = inserted (fout st0)
        +:+ (if target_is_cout (s_writer s) then "" else Sched.lines (s_writer s) written).

(** [cer]: what [std::cerr] has and what [main] has yet to send there
    make up the construction diagnostic and the diagnostics of the input. *)
Definition cer (fs : string → option string) (conf : settings) (diag0 : list string)
    (s : sys) : Prop :=
  s_conf s = conf
  ∧ s_cerr s ++ cerr_ahead fs conf (s_main s) = diag0 ++ cerr_ahead fs conf m_open.

(** All of it together. *)
Definition good_state (fs : string → option string) (conf : settings)
    (w0 : OutputWriter) (st0 : streams) (diag0 : list string) (s : sys) : Prop :=
  ctl fs conf w0 s ∧ dat fs conf st0 s ∧ cer fs conf diag0 s ∧ wk s.

(** *** The moves, as relations

    The results [main_step] and [worker_step] can have, case by case. *)

Inductive main_move (fs : string → option string) (pick : nat) (s : sys) : sys → Prop :=
| mm_open_fail :
    s_main s = m_open → fs (log_file (s_conf s)) = None →
    main_move fs pick s
      (mkSys (s_conf s) (m_mark 1) (s_queue s) (s_workers s) (s_writer s) (s_out s)
         (s_cerr s ++ [open_diag (log_file (s_conf s))]))
| mm_open content :
    s_main s = m_open → fs (log_file (s_conf s)) = Some content →
    main_move fs pick s
      (mkSys (s_conf s) (m_loop (istringstream_new content) "") (s_queue s)
         (s_workers s) (s_writer s) (s_out s) (s_cerr s))
| mm_eof infile line :
    s_main s = m_loop infile line → fail (getline infile line).1 = true →
    main_move fs pick s
      (mkSys (s_conf s) (m_mark 0) (s_queue s) (s_workers s) (s_writer s) (s_out s)
         (s_cerr s))
| mm_skip infile line :
    s_main s = m_loop infile line → fail (getline infile line).1 = false →
    parse_record (getline infile line).2 = None →
    main_move fs pick s
      (mkSys (s_conf s) (m_loop (getline infile line).1 (getline infile line).2)
         (s_queue s) (s_workers s) (s_writer s) (s_out s)
         (s_cerr s ++ [skip_diag (getline infile line).2]))
| mm_push infile line entry :
    s_main s = m_loop infile line → fail (getline infile line).1 = false →
    parse_record (getline infile line).2 = Some entry →
    main_move fs pick s
      (mkSys (s_conf s) (m_loop (getline infile line).1 (getline infile line).2)
         (push entry (s_queue s)) (wake_one pick (s_workers s)) (s_writer s) (s_out s)
         (s_cerr s))
| mm_mark code :
    s_main s = m_mark code →
    main_move fs pick s
      (mkSys (s_conf s) (m_join code) (mark_finished (s_queue s))
         (wake_all (s_workers s)) (s_writer s) (s_out s) (s_cerr s))
| mm_joined code :
    s_main s = m_join code → forallb is_exited (s_workers s) = true →
    main_move fs pick s
      (mkSys (s_conf s) (m_exit code) (s_queue s) (s_workers s) (s_writer s)
         (if Z.eqb code 0
          then mkStreams (apply_op (cout (s_out s)) (op_put complete_msg))
                 (fout (s_out s))
          else s_out s)
         (s_cerr s))
| mm_stay : main_move fs pick s s.

Inductive worker_move (i : nat) (s : sys) : sys → Prop :=
| wm_sleep e :
    s_workers s !! i = Some (mkWorker at_pop e) →
    queue_ (s_queue s) = [] → finished_ (s_queue s) = false →
    worker_move i s
      (mkSys (s_conf s) (s_main s) (s_queue s)
         (<[i:=mkWorker asleep e]> (s_workers s)) (s_writer s) (s_out s) (s_cerr s))
| wm_exit e :
    s_workers s !! i = Some (mkWorker at_pop e) →
    queue_ (s_queue s) = [] → finished_ (s_queue s) = true →
    worker_move i s
      (mkSys (s_conf s) (s_main s) (s_queue s)
         (<[i:=mkWorker exited e]> (s_workers s)) (s_writer s) (s_out s) (s_cerr s))
| wm_pop e front rest :
    s_workers s !! i = Some (mkWorker at_pop e) →
    queue_ (s_queue s) = front :: rest →
    worker_move i s
      (mkSys (s_conf s) (s_main s) (mkQueue rest (finished_ (s_queue s)))
         (<[i:=mkWorker at_write front]> (s_workers s)) (s_writer s) (s_out s)
         (s_cerr s))
| wm_write e :
    s_workers s !! i = Some (mkWorker at_write e) →
    worker_move i s
      (mkSys (s_conf s) (s_main s) (s_queue s)
         (<[i:=mkWorker at_pop e]> (s_workers s)) (s_writer s)
         (write (s_writer s) e (Z.of_nat i) (s_out s)).2 (s_cerr s))
| wm_stay : worker_move i s s.

Inductive move (fs : string → option string) (s : sys) : sys → Prop :=
| mv_main pick s' : main_move fs pick s s' → move fs s s'
| mv_worker i s' : worker_move i s s' → move fs s s'
| mv_spurious i :
    move fs s
      (mkSys (s_conf s) (s_main s) (s_queue s) (alter wake i (s_workers s))
         (s_writer s) (s_out s) (s_cerr s)).

(** The read loop of [main] on its own, collecting the lines it gets:
    [while (std::getline(infile, line)) lines.push_back(line)], cut off
    after [fuel] turns. *)
Fixpoint read_loop (fuel : nat) (infile : istringstream) (line : string) : list string :=
  match fuel with
  | O => []
  | S fuel' =>
      let '(infile, line) := getline infile line in
      if fail infile then [] else line :: read_loop fuel' infile line
  end.

End Pipeline.

(** * Properties *)

(** ** Strings *)

Module StrFacts.

Lemma app_cons (a : ascii) (s1 s2 : string) :
  String a s1 +:+ s2 = String a (s1 +:+ s2).
Proof. done. Qed.

Lemma app_nil_l (s : string) : "" +:+ s = s.
Proof. done. Qed.

Lemma app_nil_r (s : string) : s +:+ "" = s.
Proof. induction s as [|a s IH]; [done | by rewrite app_cons, IH]. Qed.

Lemma app_assoc (s1 s2 s3 : string) : s1 +:+ (s2 +:+ s3) = (s1 +:+ s2) +:+ s3.
Proof. induction s1 as [|a s1 IH]; [done | by rewrite !app_cons, IH]. Qed.

Lemma cat_nil : Str.cat [] = "".
Proof. done. Qed.

Lemma cat_cons (s : string) (l : list string) : Str.cat (s :: l) = s +:+ Str.cat l.
Proof. done. Qed.

Lemma cat_app (l1 l2 : list string) : Str.cat (l1 ++ l2) = Str.cat l1 +:+ Str.cat l2.
Proof.
  induction l1 as [|s l1 IH]; [done|].
  by rewrite <- app_comm_cons, !cat_cons, IH, app_assoc.
Qed.

End StrFacts.

(** ** ThreadSafeQueue *)

Section queue_facts.

Implicit Types (q : ThreadSafeQueue) (e out : LogEntry) (cs : list call).

Lemma pop_nonempty e rest fin out :
  pop (mkQueue (e :: rest) fin) out = pop_returns true e (mkQueue rest fin).
Proof. unfold pop, pop_ready, queue_empty; simpl. by rewrite orb_true_r. Qed.

Lemma pop_finished_empty out :
  pop (mkQueue [] true) out = pop_returns false out (mkQueue [] true).
Proof. done. Qed.

Lemma pop_open_empty out : pop (mkQueue [] false) out = pop_waits.
Proof. done. Qed.

Lemma pop_exhausted_iff q out :
  exhausted (pop q out) ↔ queue_ q = [] ∧ finished_ q = true.
Proof.
  destruct q as [[|e rest] [|]]; unfold exhausted; simpl.
  - rewrite pop_finished_empty. split; [done | eauto].
  - rewrite pop_open_empty. split; [by intros (? & ? & ?) | by intros [_ ?]].
  - rewrite pop_nonempty. split; [by intros (? & ? & ?) | by intros [? _]].
  - rewrite pop_nonempty. split; [by intros (? & ? & ?) | by intros [? _]].
Qed.

Lemma run_cons c cs q :
  run (c :: cs) q = ((do_call c q).1 :: (run cs (do_call c q).2).1,
                     (run cs (do_call c q).2).2).
Proof. simpl. destruct (do_call c q) as [ev q1]; simpl. by destruct (run cs q1). Qed.

Lemma run_app cs1 cs2 q :
  run (cs1 ++ cs2) q = ((run cs1 q).1 ++ (run cs2 (run cs1 q).2).1,
                        (run cs2 (run cs1 q).2).2).
Proof.
  revert q; induction cs1 as [|c cs1 IH]; intros q.
  - simpl. by destruct (run cs2 q).
  - rewrite <- app_comm_cons, !run_cons, IH. done.
Qed.

(** The flag is set by [mark_finished] and by nothing else, and nothing
    clears it. *)
Lemma do_call_finished c q :
  finished_ (do_call c q).2 = finished_ q || bool_decide (c = c_mark_finished).
Proof.
  destruct c as [e|n out|]; simpl.
  - by rewrite orb_false_r.
  - rewrite orb_false_r. unfold pop.
    destruct (pop_ready q); [|done]. by destruct (queue_ q).
  - by rewrite orb_true_r.
Qed.

Lemma run_finished cs q :
  finished_ (run cs q).2 = finished_ q || bool_decide (c_mark_finished ∈ cs).
Proof.
  revert q; induction cs as [|c cs IH]; intros q.
  - simpl. by rewrite orb_false_r.
  - rewrite run_cons; simpl. rewrite IH, do_call_finished, <- orb_assoc.
    f_equal. apply eq_true_iff_eq.
    rewrite orb_true_iff, !bool_decide_eq_true, elem_of_cons.
    split; (intros [H|H]; [left; by symmetry | by right]).
Qed.

(** What was queued at the start and what was pushed since is what was
    handed out followed by what is still queued. *)
Lemma run_fifo cs q :
  queue_ q ++ pushed (run cs q).1 = popped (run cs q).1 ++ queue_ (run cs q).2.
Proof.
  revert q; induction cs as [|c cs IH]; intros q.
  - simpl. by rewrite app_nil_r.
  - rewrite run_cons; simpl. specialize (IH (do_call c q).2).
    destruct c as [e|n out|]; simpl in *.
    + unfold pushed, popped in *; simpl. by rewrite <- IH, <- app_assoc.
    + unfold pop in *. destruct (pop_ready q); [|done].
      destruct q as [[|front rest] fin]; simpl in *; [done|].
      unfold pushed, popped in *; simpl. by rewrite <- IH.
    + done.
Qed.

(** Pops on a finished, empty queue: each returns [false], leaves [out] as
    it was, and leaves the queue finished and empty. *)
Lemma run_pops_drained (pops : list (nat * LogEntry)) :
  run ((λ p, c_pop p.1 p.2) <$> pops) (mkQueue [] true)
  = ((λ p, ev_pop p.1 false p.2) <$> pops, mkQueue [] true).
Proof.
  induction pops as [|[n out] pops IH]; [done|].
  rewrite fmap_cons, run_cons. simpl. by rewrite IH.
Qed.

(** Pops on a non-empty queue hand out its records from the front. *)
Lemma run_pops_front n out (l1 l2 : list LogEntry) fin :
  run (replicate (length l1) (c_pop n out)) (mkQueue (l1 ++ l2) fin)
  = ((λ e, ev_pop n true e) <$> l1, mkQueue l2 fin).
Proof.
  induction l1 as [|e l1 IH]; [done|].
  change (replicate (length (e :: l1)) (c_pop n out))
    with (c_pop n out :: replicate (length l1) (c_pop n out)).
  rewrite run_cons. simpl. rewrite pop_nonempty. simpl. by rewrite IH.
Qed.

Lemma popped_pops n (l : list LogEntry) :
  popped ((λ e, ev_pop n true e) <$> l) = l.
Proof.
  induction l as [|e l IH]; [done|].
  unfold popped in *; simpl. f_equal. exact IH.
Qed.

End queue_facts.

Section monitor_facts.

Implicit Types (st : monitor) (m : mcall) (ms : list mcall).

Lemma monitor_run_cons m ms st :
  monitor_run (m :: ms) st
  = (option_list (monitor_step m st).1 ++ (monitor_run ms (monitor_step m st).2).1,
     (monitor_run ms (monitor_step m st).2).2).
Proof.
  simpl. destruct (monitor_step m st) as [ev st1]; simpl.
  by destruct (monitor_run ms st1).
Qed.

Lemma monitor_step_finished m st :
  finished_ (the_queue (monitor_step m st).2)
  = finished_ (the_queue st) || bool_decide (m = m_mark_finished).
Proof.
  destruct m as [e pick|n out|n|]; simpl.
  - by rewrite orb_false_r.
  - rewrite orb_false_r. destruct (bool_decide (n ∈ sleeping st)); [done|].
    unfold pop. destruct (pop_ready (the_queue st)); [|done].
    by destruct (queue_ (the_queue st)).
  - by rewrite orb_false_r.
  - by rewrite orb_true_r.
Qed.

Lemma monitor_run_finished ms st :
  finished_ (the_queue (monitor_run ms st).2)
  = finished_ (the_queue st) || bool_decide (m_mark_finished ∈ ms).
Proof.
  revert st; induction ms as [|m ms IH]; intros st.
  - simpl. by rewrite orb_false_r.
  - rewrite monitor_run_cons; simpl. rewrite IH, monitor_step_finished, <- orb_assoc.
    f_equal. apply eq_true_iff_eq.
    rewrite orb_true_iff, !bool_decide_eq_true, elem_of_cons.
    split; (intros [H|H]; [left; by symmetry | by right]).
Qed.

(** Nobody sleeps on a finished queue: [mark_finished] wakes everybody,
    and after it the predicate of [pop] is true. *)
Lemma monitor_step_awake m st :
  (finished_ (the_queue st) = true → sleeping st = []) →
  finished_ (the_queue (monitor_step m st).2) = true →
  sleeping (monitor_step m st).2 = [].
Proof.
  intros Hst. destruct m as [e pick|n out|n|]; simpl.
  - intros Hfin. by rewrite (Hst Hfin).
  - destruct (bool_decide (n ∈ sleeping st)); [done|].
    destruct st as [[[|e l] [|]] sl]; simpl in *; try done; intros _; by apply Hst.
  - intros Hfin. by rewrite (Hst Hfin).
  - done.
Qed.

Lemma monitor_run_awake ms st :
  (finished_ (the_queue st) = true → sleeping st = []) →
  finished_ (the_queue (monitor_run ms st).2) = true →
  sleeping (monitor_run ms st).2 = [].
Proof.
  revert st; induction ms as [|m ms IH]; intros st Hst; [done|].
  rewrite monitor_run_cons; simpl. apply IH. by apply monitor_step_awake.
Qed.

End monitor_facts.

(** C1.  [pop] returns "exhausted" exactly when the queue is empty and
    finished.  With a record queued [pop] returns that record whatever the
    flag; on an open, empty queue it waits.  The flag is set exactly when
    [mark_finished] occurred in the history, so after any history [pop] is
    exhausted if and only if nothing is queued and [mark_finished] was
    called.  On the finished, empty queue every pop by every consumer
    returns "exhausted" and leaves the queue as it is; in particular after
    [mark_finished] on a new queue.  And once [mark_finished] was called no
    consumer is left asleep on [cv_]: on the empty queue each of them gets
    "exhausted". *)
Theorem pop_exhausted_iff_empty_and_finished :
  (∀ q out, exhausted (pop q out) ↔ queue_ q = [] ∧ finished_ q = true)
  ∧ (∀ e rest fin out, ¬ exhausted (pop (mkQueue (e :: rest) fin) out))
  ∧ (∀ cs out,
       exhausted (pop (run cs ThreadSafeQueue_new).2 out)
       ↔ queue_ (run cs ThreadSafeQueue_new).2 = [] ∧ c_mark_finished ∈ cs)
  ∧ (∀ pops : list (nat * LogEntry),
       run ((λ p, c_pop p.1 p.2) <$> pops) (mkQueue [] true)
       = ((λ p, ev_pop p.1 false p.2) <$> pops, mkQueue [] true))
  ∧ (∀ pops : list (nat * LogEntry),
       run (c_mark_finished :: ((λ p, c_pop p.1 p.2) <$> pops)) ThreadSafeQueue_new
       = (ev_mark_finished :: ((λ p, ev_pop p.1 false p.2) <$> pops), mkQueue [] true))
  ∧ (∀ ms consumer out,
       m_mark_finished ∈ ms →
       queue_ (the_queue (monitor_run ms monitor_new).2) = [] →
       sleeping (monitor_run ms monitor_new).2 = []
       ∧ monitor_step (m_pop consumer out) (monitor_run ms monitor_new).2
         = (Some (ev_pop consumer false out), (monitor_run ms monitor_new).2)).
Proof.
  split_and!.
  - apply pop_exhausted_iff.
  - intros e rest fin out. rewrite pop_exhausted_iff. simpl. by intros [? _].
  - intros cs out. rewrite pop_exhausted_iff, run_finished. simpl.
    by rewrite bool_decide_eq_true.
  - apply run_pops_drained.
  - intros pops. rewrite run_cons. simpl.
    change (mark_finished ThreadSafeQueue_new) with (mkQueue [] true).
    by rewrite run_pops_drained.
  - intros ms consumer out Hin Hempty.
    assert (Hfin : finished_ (the_queue (monitor_run ms monitor_new).2) = true).
    { rewrite monitor_run_finished. simpl. by apply bool_decide_eq_true. }
    assert (Hsl : sleeping (monitor_run ms monitor_new).2 = [])
      by (by apply monitor_run_awake).
    split; [done|]. simpl. rewrite Hsl. simpl.
    destruct (monitor_run ms monitor_new).2 as [[l fin] sl]. simpl in *.
    by subst.
Qed.

Lemma pop_exhausted_iff_empty_and_finished_witness :
  let e := mkLogEntry "2024-01-01 10:00:00" "INFO" "auth" "user logged in" in
  let d := LogEntry_default in
  let ms := [m_pop 0 d; m_pop 1 d; m_push e 7; m_pop 2 d; m_spurious 1; m_pop 1 d;
             m_mark_finished] in
  m_mark_finished ∈ ms
  ∧ queue_ (the_queue (monitor_run ms monitor_new).2) = []
  ∧ sleeping (monitor_run ms monitor_new).2 = []
  ∧ monitor_step (m_pop 0 d) (monitor_run ms monitor_new).2
    = (Some (ev_pop 0 false d), (monitor_run ms monitor_new).2).
Proof.
  intros e d ms.
  assert (Hin : m_mark_finished ∈ ms) by (apply list_elem_of_In; simpl; tauto).
  split; [exact Hin|]. split; [reflexivity|].
  exact (proj2 (proj2 (proj2 (proj2 (proj2 pop_exhausted_iff_empty_and_finished))))
           ms 0%nat d Hin eq_refl).
Defined.

(** C6.  A successful [pop] hands out the front of the queue.  After any
    history on a new queue, the records handed out followed by the records
    still queued are the records pushed, in push order: the front is the
    earliest pushed record not yet handed out, and once nothing is queued the
    records handed out are exactly the push sequence. *)
Theorem pop_fifo :
  (∀ e rest fin out,
     pop (mkQueue (e :: rest) fin) out = pop_returns true e (mkQueue rest fin))
  ∧ (∀ cs,
       popped (run cs ThreadSafeQueue_new).1 ++ queue_ (run cs ThreadSafeQueue_new).2
       = pushed (run cs ThreadSafeQueue_new).1)
  ∧ (∀ cs,
       queue_ (run cs ThreadSafeQueue_new).2 = [] →
       popped (run cs ThreadSafeQueue_new).1 = pushed (run cs ThreadSafeQueue_new).1).
Proof.
  split_and!.
  - apply pop_nonempty.
  - intros cs. by rewrite <- run_fifo.
  - intros cs Hempty. pose proof (run_fifo cs ThreadSafeQueue_new) as Hfifo.
    rewrite Hempty, app_nil_r in Hfifo. by simpl in Hfifo.
Qed.

Lemma pop_fifo_witness :
  let e1 := mkLogEntry "t1" "INFO" "auth" "one" in
  let e2 := mkLogEntry "t2" "WARN" "db" "two" in
  let cs := [c_push e1; c_pop 0 LogEntry_default; c_push e2; c_mark_finished;
             c_pop 1 LogEntry_default; c_pop 0 LogEntry_default] in
  queue_ (run cs ThreadSafeQueue_new).2 = []
  ∧ popped (run cs ThreadSafeQueue_new).1 = [e1; e2].
Proof.
  intros e1 e2 cs. split; [reflexivity|].
  exact (proj2 (proj2 pop_fifo) cs eq_refl).
Defined.

(** C8.  [mark_finished] is idempotent: calling it again leaves the state
    as one call left it (nobody is asleep after the first, so the second
    wakes nobody), so every later history of pushes and pops sees the same
    events and ends in the same state.  No call clears the flag. *)
Theorem mark_finished_idempotent :
  (∀ q, mark_finished (mark_finished q) = mark_finished q)
  ∧ (∀ n q, Nat.iter (S n) mark_finished q = mark_finished q)
  ∧ (∀ n q cs,
       run cs (Nat.iter (S n) mark_finished q) = run cs (mark_finished q))
  ∧ (∀ st, (monitor_step m_mark_finished (monitor_step m_mark_finished st).2).2
           = (monitor_step m_mark_finished st).2)
  ∧ (∀ c q, finished_ q = true → finished_ (do_call c q).2 = true)
  ∧ (∀ cs q, finished_ q = true → finished_ (run cs q).2 = true).
Proof.
  assert (Hiter : ∀ n q, Nat.iter (S n) mark_finished q = mark_finished q).
  { induction n as [|n IH]; intros q; [done|].
    change (Nat.iter (S (S n)) mark_finished q)
      with (mark_finished (Nat.iter (S n) mark_finished q)).
    by rewrite IH. }
  split_and!.
  - done.
  - done.
  - intros n q cs. by rewrite Hiter.
  - done.
  - intros c q Hfin. by rewrite do_call_finished, Hfin.
  - intros cs q Hfin. by rewrite run_finished, Hfin.
Qed.

Lemma mark_finished_idempotent_witness :
  let q := mkQueue [mkLogEntry "t" "INFO" "auth" "m"] true in
  finished_ q = true
  ∧ finished_ (run [c_push LogEntry_default; c_pop 0 LogEntry_default;
                    c_pop 1 LogEntry_default; c_pop 0 LogEntry_default] q).2 = true.
Proof.
  intros q. split; [reflexivity|].
  exact (proj2 (proj2 (proj2 (proj2 (proj2 mark_finished_idempotent)))) _ q eq_refl).
Defined.

(** C10.  The flag does not close the producer side.  A [push] after
    [mark_finished] appends the record like any other push; [pop] on the
    resulting queue is never "exhausted"; if nothing else was queued it
    returns that very record, and in general the record comes out after the
    ones queued before it. *)
Theorem push_after_mark_finished :
  (∀ q e, push e (mark_finished q) = mkQueue (queue_ q ++ [e]) true)
  ∧ (∀ q e out, ¬ exhausted (pop (push e (mark_finished q)) out))
  ∧ (∀ fin e out,
       pop (push e (mark_finished (mkQueue [] fin))) out
       = pop_returns true e (mkQueue [] true))
  ∧ (∀ q e n out,
       run (replicate (length (queue_ q ++ [e])) (c_pop n out)) (push e (mark_finished q))
       = ((λ e', ev_pop n true e') <$> (queue_ q ++ [e]), mkQueue [] true)).
Proof.
  split_and!.
  - done.
  - intros q e out. rewrite pop_exhausted_iff. simpl.
    intros [Hnil _]. by destruct (queue_ q).
  - done.
  - intros q e n out.
    change (push e (mark_finished q)) with (mkQueue (queue_ q ++ [e]) true).
    rewrite <- (app_nil_r (queue_ q ++ [e])) at 2.
    apply run_pops_front.
Qed.

(** ** The line parser *)

Section parser_facts.

Implicit Types (s line str : string) (c : ascii) (e entry : LogEntry).

Import StrFacts.

Lemma isspace_is_space c : isspace c = Ascii.is_space c.
Proof. by destruct c as [[] [] [] [] [] [] [] []]. Qed.

Lemma skipws_head s : is_tail (skipws s) = true → skipws s = "".
Proof.
  induction s as [|c s IH]; [done|]. simpl.
  destruct (isspace c) eqn:Hc; [done|]. simpl. by rewrite Hc.
Qed.

Lemma scan_token_tail s : is_tail (scan_token s).2 = true.
Proof.
  induction s as [|c s IH]; [done|]. simpl.
  destruct (isspace c) eqn:Hc; [by simpl; rewrite Hc|].
  by destruct (scan_token s).
Qed.

Lemma scan_token_no_space s : no_space (scan_token s).1 = true.
Proof.
  induction s as [|c s IH]; [done|]. simpl.
  destruct (isspace c) eqn:Hc; [done|].
  destruct (scan_token s); simpl in *. by rewrite Hc.
Qed.

Lemma scan_token_app s : (scan_token s).1 +:+ (scan_token s).2 = s.
Proof.
  induction s as [|c s IH]; [done|]. simpl.
  destruct (isspace c); [done|].
  destruct (scan_token s); simpl in *. by rewrite app_cons, IH.
Qed.

Lemma next_token_Some s tok rest :
  next_token s = Some (tok, rest) → is_token tok = true ∧ is_tail rest = true.
Proof.
  unfold next_token. destruct (skipws s) as [|c r] eqn:Hs; [done|].
  intros Htok. apply (inj Some) in Htok.
  pose proof (scan_token_tail (String c r)) as Ht.
  pose proof (scan_token_no_space (String c r)) as Hn.
  rewrite Htok in Ht, Hn. simpl in Ht, Hn. split; [|done].
  unfold is_token. rewrite Hn, andb_true_r.
  simpl in Htok. destruct (isspace c) eqn:Hc.
  - pose proof (skipws_head s) as Hh. rewrite Hs in Hh. simpl in Hh.
    by specialize (Hh Hc).
  - destruct (scan_token r). by injection Htok as <- _.
Qed.

(** *** Extraction, case by case *)

Lemma extract_failed str : extract failed str = (failed, str).
Proof. done. Qed.

Lemma extract_new line str :
  extract (istringstream_new line) str =
  match next_token line with
  | None => (failed, str)
  | Some (tok, rest) => (after_extract rest, tok)
  end.
Proof.
  pose proof (next_token_Some line) as Hn.
  unfold extract, next_token, sentry, istringstream_new, good in *.
  cbn [eofbit failbit rdbuf negb andb].
  destruct (skipws line) as [|c r]; [done|]. cbn [eofbit failbit rdbuf].
  destruct (scan_token (String c r)) as [tok rest].
  destruct (Hn tok rest eq_refl) as [Htok _].
  unfold is_token in Htok. apply andb_true_iff in Htok as [Htok _].
  apply negb_true_iff in Htok. by rewrite Htok.
Qed.

Lemma extract_after rest str :
  extract (after_extract rest) str =
  match next_token rest with
  | None => (failed, str)
  | Some (tok, rest') => (after_extract rest', tok)
  end.
Proof.
  destruct rest as [|c r]; [done|].
  apply (extract_new (String c r)).
Qed.

(** [getline] right after a successful extraction: the unread characters
    up to the first newline, or none when the token ended the buffer. *)
Lemma getline_after rest :
  (getline (after_extract rest) "").2 = (scan_line rest).1.1.
Proof.
  destruct rest as [|c r]; [done|].
  unfold getline, after_extract, sentry; simpl.
  destruct (Ascii.eqb c "010"); [done|].
  by destruct (scan_line r) as [[l rest'] at_eof].
Qed.

(** *** [parse_line] as a function of the first four tokens *)

Lemma parse_line_unfold line entry :
  parse_line line entry =
  match next_token line with
  | None => (false, entry)
  | Some (date, r1) =>
    match next_token r1 with
    | None => (false, entry)
    | Some (time, r2) =>
      match next_token r2 with
      | None => (false, entry)
      | Some (lv, r3) =>
        match next_token r3 with
        | None => (false, set_level lv entry)
        | Some (sv, r4) =>
            (true, mkLogEntry (date +:+ " " +:+ time) lv sv
                     (erase_leading_space (scan_line r4).1.1))
        end
      end
    end
  end.
Proof.
  unfold parse_line. rewrite extract_new.
  destruct (next_token line) as [[date r1]|].
  2: { rewrite !extract_failed. simpl. by destruct entry. }
  rewrite extract_after. destruct (next_token r1) as [[time r2]|].
  2: { rewrite !extract_failed. simpl. by destruct entry. }
  rewrite extract_after. destruct (next_token r2) as [[lv r3]|].
  2: { rewrite !extract_failed. simpl. by destruct entry. }
  rewrite extract_after. destruct (next_token r3) as [[sv r4]|].
  2: { simpl. by destruct entry. }
  change (fail (after_extract r4)) with false. cbv iota.
  pose proof (getline_after r4) as Hg.
  destruct (getline (after_extract r4) "") as [iss rest]. simpl in Hg. by rewrite Hg.
Qed.

End parser_facts.

(** *** Tokens *)

Section token_facts.

Implicit Types (s line str : string) (c : ascii) (e entry : LogEntry).

Import StrFacts.

Lemma words_go_Some cur s :
  String.words_go (Some cur) s
  = String.rev_app cur (scan_token s).1 :: String.words_go None (scan_token s).2.
Proof.
  revert cur; induction s as [|c s IH]; intros cur; [done|].
  simpl. rewrite <- isspace_is_space. destruct (isspace c) eqn:Hc.
  - simpl. by rewrite <- isspace_is_space, Hc.
  - rewrite IH. by destruct (scan_token s).
Qed.

Lemma words_go_skipws s : String.words_go None s = String.words_go None (skipws s).
Proof.
  induction s as [|c s IH]; [done|].
  simpl. rewrite <- isspace_is_space. destruct (isspace c) eqn:Hc; [done|].
  simpl. by rewrite <- isspace_is_space, Hc.
Qed.

(** The tokens of a line are its next token followed by the tokens of what
    comes after it. *)
Lemma tokens_unfold s :
  tokens s = match next_token s with
             | None => []
             | Some (tok, rest) => tok :: tokens rest
             end.
Proof.
  unfold tokens, String.words, next_token. rewrite words_go_skipws.
  destruct (skipws s) as [|c r] eqn:Hs; [done|].
  pose proof (skipws_head s) as Hh. rewrite Hs in Hh. simpl in Hh.
  destruct (isspace c) eqn:Hc; [by specialize (Hh eq_refl)|].
  simpl. rewrite <- isspace_is_space, Hc. simpl.
  rewrite words_go_Some. by destruct (scan_token r).
Qed.

Lemma after_tokens_S n s tok rest :
  next_token s = Some (tok, rest) → after_tokens (S n) s = after_tokens n rest.
Proof.
  unfold next_token. cbn [after_tokens]. destruct (skipws s) as [|c r]; [done|].
  intros Htok. apply (inj Some) in Htok. by rewrite Htok.
Qed.

(** The first four tokens, as the four extractions of [parse_line] find
    them. *)
Lemma four_tokens line :
  (4 ≤ length (tokens line))%nat →
  ∃ date r1 time r2 lv r3 sv r4,
    next_token line = Some (date, r1) ∧ next_token r1 = Some (time, r2)
    ∧ next_token r2 = Some (lv, r3) ∧ next_token r3 = Some (sv, r4)
    ∧ tokens line = date :: time :: lv :: sv :: tokens r4
    ∧ after_tokens 4 line = r4.
Proof.
  intros Hlen. rewrite tokens_unfold in Hlen.
  destruct (next_token line) as [[date r1]|] eqn:H1; [|simpl in Hlen; lia].
  rewrite tokens_unfold in Hlen.
  destruct (next_token r1) as [[time r2]|] eqn:H2; [|simpl in Hlen; lia].
  rewrite tokens_unfold in Hlen.
  destruct (next_token r2) as [[lv r3]|] eqn:H3; [|simpl in Hlen; lia].
  rewrite tokens_unfold in Hlen.
  destruct (next_token r3) as [[sv r4]|] eqn:H4; [|simpl in Hlen; lia].
  exists date, r1, time, r2, lv, r3, sv, r4. split_and!; try done.
  - rewrite (tokens_unfold line), H1, (tokens_unfold r1), H2.
    by rewrite (tokens_unfold r2), H3, (tokens_unfold r3), H4.
  - rewrite (after_tokens_S _ _ _ _ H1), (after_tokens_S _ _ _ _ H2).
    by rewrite (after_tokens_S _ _ _ _ H3), (after_tokens_S _ _ _ _ H4).
Qed.

(** [parse_line] succeeds exactly on the lines with four tokens or more. *)
Lemma parse_line_ok_iff line entry :
  (parse_line line entry).1 = true ↔ (4 ≤ length (tokens line))%nat.
Proof.
  rewrite parse_line_unfold, (tokens_unfold line).
  destruct (next_token line) as [[date r1]|]; [|simpl; split; [done|lia]].
  rewrite (tokens_unfold r1).
  destruct (next_token r1) as [[time r2]|]; [|simpl; split; [done|lia]].
  rewrite (tokens_unfold r2).
  destruct (next_token r2) as [[lv r3]|]; [|simpl; split; [done|lia]].
  rewrite (tokens_unfold r3).
  destruct (next_token r3) as [[sv r4]|]; simpl; split; try done; lia.
Qed.

(** On success every field is overwritten: the record that comes out does
    not depend on what the caller's record held. *)
Lemma parse_line_ok_indep line e1 e2 :
  (parse_line line e1).1 = true → parse_line line e1 = parse_line line e2.
Proof.
  rewrite !parse_line_unfold.
  destruct (next_token line) as [[date r1]|]; [|done].
  destruct (next_token r1) as [[time r2]|]; [|done].
  destruct (next_token r2) as [[lv r3]|]; [|done].
  by destruct (next_token r3) as [[sv r4]|].
Qed.

(** *** Lines without a newline character *)

Lemma has_newline_skipws s : has_newline s = false → has_newline (skipws s) = false.
Proof.
  induction s as [|c s IH]; [done|]. simpl.
  destruct (isspace c); [|done].
  intros [_ H]%orb_false_iff. auto.
Qed.

Lemma has_newline_scan_token s :
  has_newline s = false → has_newline (scan_token s).2 = false.
Proof.
  induction s as [|c s IH]; [done|]. simpl.
  destruct (isspace c); [done|].
  intros [_ H]%orb_false_iff. specialize (IH H). by destruct (scan_token s).
Qed.

Lemma has_newline_next_token s tok rest :
  has_newline s = false → next_token s = Some (tok, rest) → has_newline rest = false.
Proof.
  unfold next_token. intros Hs%has_newline_skipws.
  destruct (skipws s) as [|c r]; [done|].
  intros Htok. apply (inj Some) in Htok.
  apply has_newline_scan_token in Hs. by rewrite Htok in Hs.
Qed.

Lemma scan_line_no_newline s : has_newline s = false → scan_line s = (s, "", true).
Proof.
  induction s as [|c s IH]; [done|]. simpl.
  intros [Hc H]%orb_false_iff. by rewrite Hc, (IH H).
Qed.

Lemma erase_leading_space_spec s :
  (s = " " +:+ erase_leading_space s)
  ∨ (s = erase_leading_space s ∧ ∀ r, s ≠ " " +:+ r).
Proof.
  destruct s as [|c r]; [by right|]. simpl.
  destruct (Ascii.eqb_spec c " ") as [->|Hne]; [by left|].
  right. split; [done|]. intros r' [= ? _]. done.
Qed.

End token_facts.

(** *** Lines given by their pieces *)

Section decompose_facts.

Implicit Types (s line g t tail : string) (c : ascii) (e entry : LogEntry).

Import StrFacts.

Lemma skipws_all_space g s : all_space g = true → skipws (g +:+ s) = skipws s.
Proof.
  induction g as [|c g IH]; [done|]. simpl.
  intros [Hc Hg]%andb_true_iff. rewrite ?app_cons. simpl. rewrite Hc. auto.
Qed.

Lemma skipws_blank g : all_space g = true → skipws g = "".
Proof.
  intros Hg. rewrite <- (app_nil_r g). by rewrite skipws_all_space.
Qed.

Lemma scan_token_app_tail t tail :
  no_space t = true → is_tail tail = true → scan_token (t +:+ tail) = (t, tail).
Proof.
  intros Ht Htail. induction t as [|c t IH].
  - rewrite app_nil_l. destruct tail as [|c r]; [done|]. simpl in *. by rewrite Htail.
  - simpl in Ht. apply andb_true_iff in Ht as [Hc Ht].
    rewrite app_cons. simpl. apply negb_true_iff in Hc. rewrite Hc.
    by rewrite (IH Ht).
Qed.

Lemma next_token_pieces g t tail :
  all_space g = true → is_token t = true → is_tail tail = true →
  next_token (g +:+ t +:+ tail) = Some (t, tail).
Proof.
  intros Hg [Hne Ht]%andb_true_iff Htail. unfold next_token.
  rewrite skipws_all_space by done.
  destruct t as [|c t]; [done|]. rewrite app_cons.
  pose proof Ht as Ht'. simpl in Ht'. apply andb_true_iff in Ht' as [Hc _].
  apply negb_true_iff in Hc. simpl skipws. rewrite Hc.
  rewrite <- app_cons. by rewrite scan_token_app_tail.
Qed.

Lemma gap_all_space g : is_gap g = true → all_space g = true.
Proof. by intros [_ ?]%andb_true_iff. Qed.

Lemma gap_app_tail g s : is_gap g = true → is_tail (g +:+ s) = true.
Proof.
  destruct g as [|c g]; [done|]. unfold is_gap. simpl.
  by intros [Hc _]%andb_true_iff.
Qed.

Lemma next_token_blank g : all_space g = true → next_token g = None.
Proof. intros Hg. unfold next_token. by rewrite skipws_blank. Qed.

(** A line written as four tokens separated by gaps, after optional
    leading whitespace and before a tail: the four extractions find those
    four tokens and leave the tail. *)
Lemma next_token_four_pieces g0 t0 g1 t1 g2 t2 g3 t3 tail :
  all_space g0 = true → is_token t0 = true →
  is_gap g1 = true → is_token t1 = true →
  is_gap g2 = true → is_token t2 = true →
  is_gap g3 = true → is_token t3 = true →
  is_tail tail = true →
  let r3 := g3 +:+ t3 +:+ tail in
  let r2 := g2 +:+ t2 +:+ r3 in
  let r1 := g1 +:+ t1 +:+ r2 in
  next_token (g0 +:+ t0 +:+ r1) = Some (t0, r1)
  ∧ next_token r1 = Some (t1, r2)
  ∧ next_token r2 = Some (t2, r3)
  ∧ next_token r3 = Some (t3, tail).
Proof.
  intros Hg0 Ht0 Hg1 Ht1 Hg2 Ht2 Hg3 Ht3 Htail r3 r2 r1. subst r1 r2 r3.
  split_and!; apply next_token_pieces;
    first [done | by apply gap_all_space | by apply gap_app_tail].
Qed.

Lemma four_tokens_pieces g0 t0 g1 t1 g2 t2 g3 t3 tail :
  all_space g0 = true → is_token t0 = true →
  is_gap g1 = true → is_token t1 = true →
  is_gap g2 = true → is_token t2 = true →
  is_gap g3 = true → is_token t3 = true →
  is_tail tail = true →
  let line := g0 +:+ t0 +:+ g1 +:+ t1 +:+ g2 +:+ t2 +:+ g3 +:+ t3 +:+ tail in
  tokens line = t0 :: t1 :: t2 :: t3 :: tokens tail
  ∧ after_tokens 4 line = tail.
Proof.
  intros Hg0 Ht0 Hg1 Ht1 Hg2 Ht2 Hg3 Ht3 Htail line. subst line.
  destruct (next_token_four_pieces g0 t0 g1 t1 g2 t2 g3 t3 tail)
    as (H0 & H1 & H2 & H3); try done.
  split.
  - rewrite (tokens_unfold (g0 +:+ _)), H0, (tokens_unfold (g1 +:+ _)), H1.
    by rewrite (tokens_unfold (g2 +:+ _)), H2, (tokens_unfold (g3 +:+ _)), H3.
  - rewrite (after_tokens_S _ _ _ _ H0), (after_tokens_S _ _ _ _ H1).
    by rewrite (after_tokens_S _ _ _ _ H2), (after_tokens_S _ _ _ _ H3).
Qed.

(** The Record of such a line, up to the first newline of the tail. *)
Lemma parse_line_pieces g0 t0 g1 t1 g2 t2 g3 t3 tail entry :
  all_space g0 = true → is_token t0 = true →
  is_gap g1 = true → is_token t1 = true →
  is_gap g2 = true → is_token t2 = true →
  is_gap g3 = true → is_token t3 = true →
  is_tail tail = true →
  parse_line (g0 +:+ t0 +:+ g1 +:+ t1 +:+ g2 +:+ t2 +:+ g3 +:+ t3 +:+ tail) entry
  = (true, mkLogEntry (t0 +:+ " " +:+ t1) t2 t3
             (erase_leading_space (scan_line tail).1.1)).
Proof.
  intros Hg0 Ht0 Hg1 Ht1 Hg2 Ht2 Hg3 Ht3 Htail.
  destruct (next_token_four_pieces g0 t0 g1 t1 g2 t2 g3 t3 tail)
    as (H0 & H1 & H2 & H3); try done.
  by rewrite parse_line_unfold, H0, H1, H2, H3.
Qed.

(** With a newline in the tail, [getline] stops there: the message is cut
    at the first newline after the fourth token. *)
Lemma parse_line_message line entry :
  (4 ≤ length (tokens line))%nat →
  message (parse_line line entry).2
  = erase_leading_space (scan_line (after_tokens 4 line)).1.1.
Proof.
  intros (date & r1 & time & r2 & lv & r3 & sv & r4
          & H1 & H2 & H3 & H4 & _ & Hafter)%four_tokens.
  by rewrite parse_line_unfold, H1, H2, H3, H4, Hafter.
Qed.

(** When [parse_line] fails it leaves the record alone, except on a line
    of exactly three tokens, where [level] has taken the third. *)
Lemma parse_line_failure line entry :
  (parse_line line entry).1 = false →
  (parse_line line entry).2 = entry
  ∨ ∃ a b c : string,
      tokens line = [a; b; c] ∧ (parse_line line entry).2 = set_level c entry.
Proof.
  rewrite parse_line_unfold, (tokens_unfold line).
  destruct (next_token line) as [[date r1]|]; [|by left].
  rewrite (tokens_unfold r1).
  destruct (next_token r1) as [[time r2]|]; [|by left].
  rewrite (tokens_unfold r2).
  destruct (next_token r2) as [[lv r3]|]; [|by left].
  rewrite (tokens_unfold r3).
  destruct (next_token r3) as [[sv r4]|]; [done|].
  intros _. right. by exists date, time, lv.
Qed.

Lemma parse_line_three_tokens line entry (a b c : string) :
  tokens line = [a; b; c] → parse_line line entry = (false, set_level c entry).
Proof.
  rewrite parse_line_unfold, (tokens_unfold line).
  destruct (next_token line) as [[date r1]|]; [|done].
  rewrite (tokens_unfold r1).
  destruct (next_token r1) as [[time r2]|]; [|done].
  rewrite (tokens_unfold r2).
  destruct (next_token r2) as [[lv r3]|]; [|done].
  rewrite (tokens_unfold r3).
  destruct (next_token r3) as [[sv r4]|]; [done|].
  by intros [= _ _ ->].
Qed.

End decompose_facts.

(** C3.  [parse_line] returns [true], and [main] gets a Record, exactly
    when the line has four whitespace-separated tokens or more; with fewer,
    a blank line included, it returns [false] and there is no Record.  The
    flag depends on the line alone, and so does the Record on success,
    whatever the caller's record held before the call. *)
Theorem parse_line_succeeds_iff_four_tokens (line : string) :
  (∀ entry, (parse_line line entry).1 = true ↔ (4 ≤ length (tokens line))%nat)
  ∧ (is_Some (parse_record line) ↔ (4 ≤ length (tokens line))%nat)
  ∧ (parse_record line = None ↔ (length (tokens line) < 4)%nat)
  ∧ (all_space line = true → parse_record line = None)
  ∧ (∀ e1 e2, (parse_line line e1).1 = (parse_line line e2).1)
  ∧ (∀ e1 e2, (parse_line line e1).1 = true →
              (parse_line line e1).2 = (parse_line line e2).2
              ∧ parse_record line = Some (parse_line line e1).2).
Proof.
  assert (Hrec : is_Some (parse_record line) ↔ (4 ≤ length (tokens line))%nat).
  { rewrite <- (parse_line_ok_iff line LogEntry_default). unfold parse_record.
    destruct (parse_line line LogEntry_default) as [[|] entry]; simpl.
    - split; [done | by eexists].
    - split; [by intros [? ?] | done]. }
  split_and!.
  - intros entry. apply parse_line_ok_iff.
  - done.
  - rewrite eq_None_not_Some, Hrec. lia.
  - intros Hblank. apply eq_None_not_Some. rewrite Hrec, tokens_unfold.
    rewrite next_token_blank by done. simpl. lia.
  - intros e1 e2. apply eq_true_iff_eq. by rewrite !parse_line_ok_iff.
  - intros e1 e2 Hok. split.
    + by rewrite (parse_line_ok_indep line e1 e2 Hok).
    + unfold parse_record. rewrite <- (parse_line_ok_indep line e1 _ Hok).
      destruct (parse_line line e1) as [ok entry]. simpl in Hok. by rewrite Hok.
Qed.

Lemma parse_line_succeeds_iff_four_tokens_witness :
  all_space "   " = true ∧ parse_record "   " = None.
Proof.
  split; [reflexivity|].
  exact (proj1 (proj2 (proj2 (proj2 (parse_line_succeeds_iff_four_tokens "   "))))
           eq_refl).
Defined.

(** The sample line of the spec, and a line of two tokens, through the
    read loop of [main]. *)
Example ingest_sample_line :
  ingest_line "2024-01-01 10:00:00 INFO auth user logged in" ([], ThreadSafeQueue_new)
  = ([], mkQueue [mkLogEntry "2024-01-01 10:00:00" "INFO" "auth" "user logged in"] false).
Proof. reflexivity. Qed.

Example ingest_bad_line :
  ingest_line "bad line" ([], ThreadSafeQueue_new)
  = (["Skipping malformed line: bad line" +:+ nl], ThreadSafeQueue_new).
Proof. reflexivity. Qed.

(** C5.  On a line (a string without a newline character) with four
    tokens or more, the Record has: [timestamp] the first token, one space,
    the second token; [level] and [service] the third and fourth tokens;
    [message] what follows the fourth token, less one leading space if it
    begins with one and otherwise character for character; and an empty
    [message] when nothing follows the fourth token. *)
Theorem parse_line_fields (line : string) (entry : LogEntry) :
  has_newline line = false →
  (4 ≤ length (tokens line))%nat →
  let r := (parse_line line entry).2 in
  timestamp r = nth 0 (tokens line) "" +:+ " " +:+ nth 1 (tokens line) ""
  ∧ level r = nth 2 (tokens line) ""
  ∧ service r = nth 3 (tokens line) ""
  ∧ message r = erase_leading_space (after_tokens 4 line)
  ∧ (after_tokens 4 line = " " +:+ message r
     ∨ (after_tokens 4 line = message r ∧ ∀ s, after_tokens 4 line ≠ " " +:+ s))
  ∧ (after_tokens 4 line = "" → message r = "").
Proof.
  intros Hnl Hlen r.
  destruct (four_tokens line Hlen)
    as (date & r1 & time & r2 & lv & r3 & sv & r4 & H1 & H2 & H3 & H4 & Htok & Hafter).
  assert (Hr4 : has_newline r4 = false).
  { eapply has_newline_next_token; [|exact H4].
    eapply has_newline_next_token; [|exact H3].
    eapply has_newline_next_token; [|exact H2].
    eapply has_newline_next_token; [exact Hnl | exact H1]. }
  assert (Hr : r = mkLogEntry (date +:+ " " +:+ time) lv sv (erase_leading_space r4)).
  { unfold r. rewrite parse_line_unfold, H1, H2, H3, H4.
    by rewrite (scan_line_no_newline r4 Hr4). }
  rewrite Hr, Htok, Hafter. simpl. split_and!; try done.
  - apply erase_leading_space_spec.
  - by intros ->.
Qed.

Lemma parse_line_fields_witness :
  let line := "2024-01-01 10:00:00 INFO auth  user   logged in" in
  let r := (parse_line line LogEntry_default).2 in
  has_newline line = false
  ∧ (4 ≤ length (tokens line))%nat
  ∧ timestamp r = nth 0 (tokens line) "" +:+ " " +:+ nth 1 (tokens line) ""
  ∧ level r = nth 2 (tokens line) ""
  ∧ service r = nth 3 (tokens line) ""
  ∧ message r = erase_leading_space (after_tokens 4 line)
  ∧ (after_tokens 4 line = " " +:+ message r
     ∨ (after_tokens 4 line = message r ∧ ∀ s, after_tokens 4 line ≠ " " +:+ s))
  ∧ (after_tokens 4 line = "" → message r = "").
Proof.
  intros line r.
  split; [reflexivity|]. split; [vm_compute; lia|].
  apply (parse_line_fields line LogEntry_default); [reflexivity | vm_compute; lia].
Defined.

(** C9 as the spec has it does not hold: on a line of three tokens the
    call returns [false] and [level] has taken the third token, but
    [service] is not cleared.  The fourth extraction finds the stream at its
    end, its sentry fails, and the string is erased only past the sentry. *)
Lemma parse_line_failure_keeps_service :
  let entry := mkLogEntry "T" "L" "S" "M" in
  tokens "a b c" = ["a"; "b"; "c"]
  ∧ (parse_line "a b c" entry).1 = false
  ∧ level (parse_line "a b c" entry).2 = "c"
  ∧ service (parse_line "a b c" entry).2 = "S"
  ∧ service (parse_line "a b c" entry).2 ≠ "".
Proof. by vm_compute. Qed.

(** C9, amended.  Failure of [parse_line] is not atomic: on every line of
    exactly three tokens it returns [false] and has set [level] of the
    caller's record to the third token, leaving [timestamp], [service] and
    [message] as they were; so the record is changed whenever its [level]
    was not already that token. *)
Theorem parse_line_failure_not_atomic (line : string) (entry : LogEntry) (a b c : string) :
  tokens line = [a; b; c] →
  (parse_line line entry).1 = false
  ∧ level (parse_line line entry).2 = c
  ∧ service (parse_line line entry).2 = service entry
  ∧ timestamp (parse_line line entry).2 = timestamp entry
  ∧ message (parse_line line entry).2 = message entry
  ∧ (level entry ≠ c → (parse_line line entry).2 ≠ entry).
Proof.
  intros Htok. rewrite (parse_line_three_tokens line entry a b c Htok). simpl.
  split_and!; try done.
  intros Hne Heq. apply Hne. by rewrite <- Heq.
Qed.

Lemma parse_line_failure_not_atomic_witness :
  let entry := mkLogEntry "T" "L" "S" "M" in
  tokens "a b c" = ["a"; "b"; "c"]
  ∧ (parse_line "a b c" entry).1 = false
  ∧ level (parse_line "a b c" entry).2 = "c"
  ∧ service (parse_line "a b c" entry).2 = service entry
  ∧ timestamp (parse_line "a b c" entry).2 = timestamp entry
  ∧ message (parse_line "a b c" entry).2 = message entry
  ∧ (level entry ≠ "c" → (parse_line "a b c" entry).2 ≠ entry).
Proof.
  intros entry. split; [reflexivity|].
  apply (parse_line_failure_not_atomic "a b c" entry "a" "b" "c"). reflexivity.
Defined.

(** ** OutputWriter *)

Section writer_facts.

Implicit Types (w : OutputWriter) (os : ostream) (st : streams) (o : op)
  (entry : LogEntry) (worker_id : Z).

Import StrFacts.

Lemma texts_nil : texts [] = "".
Proof. done. Qed.

Lemma texts_cons o ops : texts (o :: ops) = text o +:+ texts ops.
Proof. done. Qed.

Lemma texts_app ops1 ops2 : texts (ops1 ++ ops2) = texts ops1 +:+ texts ops2.
Proof. unfold texts. by rewrite fmap_app, cat_app. Qed.

Lemma inserted_apply_op os o : inserted (apply_op os o) = inserted os +:+ text o.
Proof.
  destruct o as [s|]; unfold inserted; simpl.
  - by rewrite app_assoc.
  - by rewrite !app_nil_r.
Qed.

Lemma inserted_foldl os ops :
  inserted (foldl apply_op os ops) = inserted os +:+ texts ops.
Proof.
  revert os; induction ops as [|o ops IH]; intros os.
  - simpl. by rewrite texts_nil, app_nil_r.
  - simpl. by rewrite IH, inserted_apply_op, texts_cons, app_assoc.
Qed.

(** The operations of [write] insert the rendered line and nothing else. *)
Lemma texts_write_ops w entry worker_id :
  texts (write_ops w entry worker_id) = rendered (target_is_cout w) entry worker_id.
Proof.
  unfold write_ops, rendered, texts.
  destruct (target_is_cout w); cbn [app fmap list_fmap text Str.cat foldr];
    rewrite <- ?app_assoc; reflexivity.
Qed.

(** They end with the flush. *)
Lemma write_ops_snoc w entry worker_id :
  ∃ ops, write_ops w entry worker_id = ops ++ [op_flush].
Proof.
  unfold write_ops. rewrite (assoc_L (++)). eexists.
  change [op_put nl; op_flush] with ([op_put nl] ++ [op_flush]).
  rewrite (assoc_L (++)). reflexivity.
Qed.

Lemma pending_foldl_flush os ops : pending (foldl apply_op os (ops ++ [op_flush])) = "".
Proof. by rewrite foldl_app. Qed.

(** One [write] on one stream: everything inserted before, then the line,
    all of it delivered. *)
Lemma write_stream w entry worker_id os :
  foldl apply_op os (write_ops w entry worker_id)
  = mkOstream "" (inserted os +:+ rendered (target_is_cout w) entry worker_id).
Proof.
  pose proof (inserted_foldl os (write_ops w entry worker_id)) as Hins.
  destruct (write_ops_snoc w entry worker_id) as [ops Hops].
  pose proof (pending_foldl_flush os ops) as Hpend. rewrite <- Hops in Hpend.
  rewrite texts_write_ops in Hins.
  destruct (foldl apply_op os (write_ops w entry worker_id)) as [p d].
  unfold inserted in Hins at 1. simpl in *. subst p. by rewrite app_nil_r in Hins; subst d.
Qed.

(** One [write] on the pair of streams: the target gets the line, the
    other stream is left alone. *)
Lemma write_target w entry worker_id st :
  get_target (target_ w) (write w entry worker_id st).2
  = mkOstream "" (inserted (get_target (target_ w) st)
                  +:+ rendered (target_is_cout w) entry worker_id)
  ∧ match target_ w with
    | to_cout => fout (write w entry worker_id st).2 = fout st
    | to_file => cout (write w entry worker_id st).2 = cout st
    end.
Proof.
  unfold write. cbn [snd].
  destruct (target_ w); cbn [get_target on_target cout fout];
    by rewrite write_stream.
Qed.

Lemma write_all_writer calls w st : (write_all calls (w, st)).1 = w.
Proof.
  revert st; induction calls as [|c calls IH]; intros st; [done|]. apply IH.
Qed.

End writer_facts.

(** C4 as the spec has it does not hold: the space after [service] is
    written whether or not a message follows, so the file line of a Record
    with an empty message ends in a space before the newline. *)
Lemma write_empty_message_keeps_separator :
  let w := mkWriter (Some "out.log") to_file in
  let entry := mkLogEntry "2024-01-01 10:00:00" "INFO" "auth" "" in
  let st := (write w entry 0 (mkStreams ostream_new ostream_new)).2 in
  delivered (fout st) = "[2024-01-01 10:00:00] INFO auth " +:+ nl
  ∧ delivered (fout st) ≠ "[2024-01-01 10:00:00] INFO auth" +:+ nl.
Proof. by vm_compute. Qed.

(** C4, amended.  [write] appends to its target, after whatever the stream
    was given before, the line [[timestamp] level service message]: the
    four fields in this order, the first in brackets, each followed by one
    space except the last; then [ (worker <id>)] exactly when the target is
    the console; then one newline; and it leaves nothing unflushed.  The
    other stream is not touched.  The space after [service] is there also
    when the message is empty. *)
Theorem write_renders_line (w : OutputWriter) (entry : LogEntry) (worker_id : Z)
    (st : streams) :
  let os := get_target (target_ w) st in
  let st' := (write w entry worker_id st).2 in
  pending (get_target (target_ w) st') = ""
  ∧ delivered (get_target (target_ w) st')
    = inserted os +:+ "[" +:+ timestamp entry +:+ "] " +:+ level entry +:+ " "
      +:+ service entry +:+ " " +:+ message entry
      +:+ (if target_is_cout w then " (worker " +:+ show_int worker_id +:+ ")" else "")
      +:+ nl
  ∧ match target_ w with
    | to_cout => fout st' = fout st
    | to_file => cout st' = cout st
    end
  ∧ (∀ ts lv sv,
       rendered false (mkLogEntry ts lv sv "") worker_id
       = "[" +:+ ts +:+ "] " +:+ lv +:+ " " +:+ sv +:+ " " +:+ nl).
Proof.
  intros os st'. unfold st', os.
  destruct (write_target w entry worker_id st) as [Ht Hother].
  rewrite Ht. by split_and!.
Qed.

(** The sample record of the spec on the console, written by worker 0. *)
Example write_sample_console :
  let entry := mkLogEntry "2024-01-01 10:00:00" "INFO" "auth" "user logged in" in
  let w := (OutputWriter_new (λ _, true) "").1 in
  cout (write w entry 0 (mkStreams ostream_new ostream_new)).2
  = mkOstream "" ("[2024-01-01 10:00:00] INFO auth user logged in (worker 0)" +:+ nl).
Proof. reflexivity. Qed.

(** A path that opens: the file is the target and nothing goes to
    [std::cerr]. *)
Lemma OutputWriter_file (can_open : string → bool) (path : string) :
  path ≠ "" → can_open path = true →
  OutputWriter_new can_open path = (mkWriter (Some path) to_file, []).
Proof.
  intros Hne Hopen. unfold OutputWriter_new.
  destruct path as [|c p]; [done|]. simpl. by rewrite Hopen.
Qed.

(** C7.  A writer built with no path, or with a path that does not open,
    has the console for target: every line it writes ends in the worker
    annotation and goes to [std::cout], the file stream staying as it was.
    A path that does not open costs one diagnostic on [std::cerr], at
    construction; no path costs none.  No [write] changes the writer, hence
    the target, and [write] has a result for every argument. *)
Theorem OutputWriter_console_fallback (can_open : string → bool) (path : string) :
  path = "" ∨ can_open path = false →
  let w := (OutputWriter_new can_open path).1 in
  let diag := (OutputWriter_new can_open path).2 in
  target_ w = to_cout
  ∧ (∀ entry worker_id st,
       delivered (cout (write w entry worker_id st).2)
       = inserted (cout st) +:+ "[" +:+ timestamp entry +:+ "] " +:+ level entry
         +:+ " " +:+ service entry +:+ " " +:+ message entry
         +:+ " (worker " +:+ show_int worker_id +:+ ")" +:+ nl
       ∧ fout (write w entry worker_id st).2 = fout st)
  ∧ (path ≠ "" →
     diag = ["Unable to open output file: " +:+ path +:+ ". Falling back to stdout."
             +:+ nl]
     ∧ length diag = 1%nat)
  ∧ (path = "" → diag = [])
  ∧ (∀ entry worker_id st, (write w entry worker_id st).1 = w)
  ∧ (∀ calls st, target_ (write_all calls (w, st)).1 = to_cout).
Proof.
  intros Hpath w diag.
  assert (Hw : target_ w = to_cout).
  { unfold w, OutputWriter_new. destruct path as [|c p]; [done|]. simpl.
    destruct Hpath as [?| ->]; done. }
  split_and!.
  - done.
  - intros entry worker_id st.
    destruct (write_target w entry worker_id st) as [Hd Hother].
    assert (Hc : target_is_cout w = true) by (unfold target_is_cout; by rewrite Hw).
    rewrite Hc, Hw in Hd. rewrite Hw in Hother. cbn [get_target] in Hd.
    rewrite Hd. unfold rendered. cbn [delivered].
    by rewrite <- !StrFacts.app_assoc.
  - intros Hne. unfold diag, OutputWriter_new.
    destruct path as [|c p]; [done|]. simpl.
    destruct Hpath as [?| ->]; done.
  - intros ->. done.
  - done.
  - intros calls st. by rewrite write_all_writer.
Qed.

Lemma OutputWriter_console_fallback_witness :
  let can_open := λ _ : string, false in
  let path := "/no/such/dir/out.log" in
  let w := (OutputWriter_new can_open path).1 in
  let diag := (OutputWriter_new can_open path).2 in
  (path = "" ∨ can_open path = false)
  ∧ target_ w = to_cout
  ∧ (∀ entry worker_id st,
       delivered (cout (write w entry worker_id st).2)
       = inserted (cout st) +:+ "[" +:+ timestamp entry +:+ "] " +:+ level entry
         +:+ " " +:+ service entry +:+ " " +:+ message entry
         +:+ " (worker " +:+ show_int worker_id +:+ ")" +:+ nl
       ∧ fout (write w entry worker_id st).2 = fout st)
  ∧ (path ≠ "" →
     diag = ["Unable to open output file: " +:+ path +:+ ". Falling back to stdout."
             +:+ nl]
     ∧ length diag = 1%nat)
  ∧ (path = "" → diag = [])
  ∧ (∀ entry worker_id st, (write w entry worker_id st).1 = w)
  ∧ (∀ calls st, target_ (write_all calls (w, st)).1 = to_cout).
Proof.
  intros can_open path w diag. split; [right; reflexivity|].
  apply (OutputWriter_console_fallback can_open path). right; reflexivity.
Defined.

(** ** Concurrent [write] calls *)

Module SchedFacts.
Import Sched StrFacts.

Section invariant.

Variables (w : OutputWriter) (os0 : ostream) (callss : list (list wcall)).

Implicit Types (c : config) (code : list instr) (r : list wcall)
  (todo : list (list wcall)) (call : wcall) (os : ostream).

Local Abbreviation line_of := (Sched.line_of w).
Local Abbreviation ops_of := (Sched.ops_of w).
Local Abbreviation inv := (Sched.inv w os0 callss).

Lemma thread_code_cons call r :
  thread_code w (call :: r)
  = i_lock :: (i_op <$> ops_of call) ++ i_unlock :: thread_code w r.
Proof.
  unfold thread_code, write_code, ops_of. rewrite bind_cons.
  by rewrite <- app_comm_cons, <- (assoc_L (++)).
Qed.

(** Between two calls a thread has nothing left or is about to lock. *)
Lemma thread_code_head r :
  thread_code w r = [] ∧ r = [] ∨ ∃ code, thread_code w r = i_lock :: code.
Proof.
  destruct r as [|call r]; [by left|].
  right. rewrite thread_code_cons. eauto.
Qed.

Lemma lines_snoc done call : lines w (done ++ [call]) = lines w done +:+ line_of call.
Proof. unfold lines. rewrite fmap_app, cat_app. simpl. by rewrite app_nil_r. Qed.

Lemma ops_of_nonempty call : ops_of call ≠ [].
Proof.
  unfold ops_of. destruct (write_ops_snoc w (wc_entry call) (wc_worker call)) as [ops ->].
  by destruct ops.
Qed.

Lemma ops_of_last call pre o : ops_of call = pre ++ [o] → o = op_flush.
Proof.
  unfold ops_of. destruct (write_ops_snoc w (wc_entry call) (wc_worker call)) as [ops ->].
  by intros [_ <-]%app_inj_tail.
Qed.

Lemma concat_insert_cons todo i call r :
  todo !! i = Some (call :: r) → concat todo ≡ₚ call :: concat (<[i:=r]> todo).
Proof.
  revert i; induction todo as [|x todo IH]; intros [|i] Hi; simplify_eq/=.
  - done.
  - rewrite (IH i Hi). by rewrite Permutation_middle.
Qed.

Lemma split_at_app k s : (split_at k s).1 +:+ (split_at k s).2 = s.
Proof.
  revert s; induction k as [|k IH]; intros [|a s]; simpl; try done.
  specialize (IH s). destruct (split_at k s) as [x y]. simpl in *.
  by rewrite app_cons, IH.
Qed.

Lemma inserted_spill k os : inserted (spill k os) = inserted os.
Proof.
  unfold spill, inserted. pose proof (split_at_app k (pending os)) as H.
  destruct (split_at k (pending os)) as [x y]. simpl in *.
  by rewrite <- app_assoc, H.
Qed.

Lemma pending_spill k os : pending os = "" → pending (spill k os) = "".
Proof. unfold spill. intros ->. by destruct k. Qed.

Lemma inv_init : inv (init w os0 callss).
Proof.
  exists [], callss. simpl. split_and!.
  - by rewrite length_fmap.
  - intros i code r Hcode Hr _. rewrite list_lookup_fmap, Hr in Hcode.
    by injection Hcode as <-.
  - done.
  - unfold lines. simpl. by rewrite app_nil_r.
  - done.
Qed.

(** A thread that does not hold the mutex is not inside a call. *)
Lemma inv_outside c i code :
  inv c → pool c !! i = Some code → mutex_ c ≠ Some i →
  code = [] ∨ ∃ code', code = i_lock :: code'.
Proof.
  intros (done & todo & Hlen & Hout & _) Hi Hm.
  destruct (lookup_lt_is_Some_2 todo i) as [r Hr].
  { rewrite Hlen. by eapply lookup_lt_Some. }
  rewrite (Hout i code r Hi Hr Hm).
  destruct (thread_code_head r) as [[-> _]|?]; auto.
Qed.

Lemma inv_spill c k : inv c → inv (step c (a_spill k)).
Proof.
  intros (done & todo & Hlen & Hout & Hm). exists done, todo. simpl.
  split_and!; [done..|].
  destruct (mutex_ c) as [h|].
  - destruct Hm as (call & pre & post & r & ? & ? & ? & ? & Hins & Hpend).
    exists call, pre, post, r. rewrite inserted_spill.
    split_and!; [done..|]. intros ?. apply pending_spill; auto.
  - destruct Hm as (? & Hins & Hpend). rewrite inserted_spill.
    split_and!; [done..|]. intros ?. apply pending_spill; auto.
Qed.

Lemma inv_lock c i code :
  inv c → pool c !! i = Some (i_lock :: code) → mutex_ c = None →
  inv (mkConfig (Some i) (out c) (<[i:=code]> (pool c))).
Proof.
  intros (done & todo & Hlen & Hout & Hm) Hi Hfree. rewrite Hfree in Hm, Hout.
  destruct Hm as (Hperm & Hins & Hpend).
  assert (Hlt : (i < length todo)%nat) by (rewrite Hlen; by eapply lookup_lt_Some).
  destruct (lookup_lt_is_Some_2 todo i Hlt) as [r Hr].
  pose proof (Hout i _ r Hi Hr ltac:(done)) as Hcode.
  destruct r as [|call r]; [done|].
  rewrite thread_code_cons in Hcode. injection Hcode as ->.
  exists done, (<[i:=r]> todo). simpl. split_and!.
  - by rewrite !length_insert.
  - intros j cj rj Hj Hrj Hne.
    assert (i ≠ j) by congruence.
    rewrite list_lookup_insert_ne in Hj by done.
    rewrite list_lookup_insert_ne in Hrj by done. eauto.
  - exists call, [], (ops_of call), r. split_and!.
    + by apply list_lookup_insert_eq.
    + apply list_lookup_insert_eq. by eapply lookup_lt_Some.
    + done.
    + rewrite <- Hperm. by rewrite (concat_insert_cons todo i call r Hr).
    + by rewrite texts_nil, !app_nil_r.
    + intros Hnil. by apply ops_of_nonempty in Hnil.
Qed.

Lemma inv_holder c i code :
  inv c → pool c !! i = Some code → in_critical code = true → mutex_ c = Some i.
Proof.
  intros Hinv Hi Hcrit.
  destruct (decide (mutex_ c = Some i)) as [|Hne]; [done|].
  destruct (inv_outside c i code Hinv Hi Hne) as [->|[code' ->]]; done.
Qed.

Lemma inv_op c i o code :
  inv c → pool c !! i = Some (i_op o :: code) →
  inv (mkConfig (mutex_ c) (apply_op (out c) o) (<[i:=code]> (pool c))).
Proof.
  intros Hinv Hi. pose proof (inv_holder c i _ Hinv Hi eq_refl) as Hh.
  destruct Hinv as (done & todo & Hlen & Hout & Hm). rewrite Hh in Hm.
  destruct Hm as (call & pre & post & r & Hr & Hpool & Hops & Hperm & Hins & Hpend).
  rewrite Hi in Hpool. destruct post as [|o' post]; [done|].
  injection Hpool as -> ->.
  exists done, todo. simpl. rewrite Hh. split_and!.
  - by rewrite length_insert.
  - intros j cj rj Hj Hrj Hne.
    assert (i ≠ j) by congruence.
    rewrite list_lookup_insert_ne in Hj by done. apply (Hout j cj rj Hj Hrj).
    by rewrite Hh.
  - exists call, (pre ++ [o']), post, r. split_and!.
    + done.
    + apply list_lookup_insert_eq. by eapply lookup_lt_Some.
    + by rewrite <- (assoc_L (++)).
    + done.
    + rewrite inserted_apply_op, Hins, texts_app, texts_cons, texts_nil.
      by rewrite app_nil_r, <- !app_assoc.
    + intros ->. rewrite (ops_of_last call pre o' Hops). done.
Qed.

Lemma inv_unlock c i code :
  inv c → pool c !! i = Some (i_unlock :: code) →
  inv (mkConfig None (out c) (<[i:=code]> (pool c))).
Proof.
  intros Hinv Hi. pose proof (inv_holder c i _ Hinv Hi eq_refl) as Hh.
  destruct Hinv as (done & todo & Hlen & Hout & Hm). rewrite Hh in Hm.
  destruct Hm as (call & pre & post & r & Hr & Hpool & Hops & Hperm & Hins & Hpend).
  rewrite Hi in Hpool. destruct post as [|o' post]; [|done].
  injection Hpool as ->. rewrite List.app_nil_r in Hops.
  exists (done ++ [call]), todo. simpl. split_and!.
  - by rewrite length_insert.
  - intros j cj rj Hj Hrj _. destruct (decide (i = j)) as [<-|Hne].
    + rewrite list_lookup_insert_eq in Hj by (by eapply lookup_lt_Some).
      congruence.
    + rewrite list_lookup_insert_ne in Hj by done. apply (Hout j cj rj Hj Hrj).
      rewrite Hh. congruence.
  - by rewrite <- (assoc_L (++)).
  - rewrite Hins, lines_snoc, <- Hops. unfold ops_of, line_of.
    by rewrite texts_write_ops.
  - intros _. by apply Hpend.
Qed.

Lemma inv_step c a : inv c → inv (step c a).
Proof.
  intros Hinv. destruct a as [i|k]; [|by apply inv_spill].
  simpl. destruct (pool c !! i) as [[|[|o|] code]|] eqn:Hi; [done| | | |done].
  - destruct (mutex_ c) eqn:Hm; [done|]. by apply inv_lock.
  - by apply inv_op.
  - by apply inv_unlock.
Qed.

Lemma inv_exec sched c : inv c → inv (exec sched c).
Proof.
  revert c; induction sched as [|a sched IH]; intros c Hinv; [done|].
  apply IH. by apply inv_step.
Qed.

(** *** What the invariant gives *)

Lemma inv_mutual_exclusion c i j ci cj :
  inv c → pool c !! i = Some ci → pool c !! j = Some cj →
  in_critical ci = true → in_critical cj = true → i = j.
Proof.
  intros Hinv Hi Hj Hci Hcj.
  pose proof (inv_holder c i ci Hinv Hi Hci) as H1.
  pose proof (inv_holder c j cj Hinv Hj Hcj) as H2. congruence.
Qed.

Lemma inv_whole_lines c :
  inv c →
  ∃ done partial,
    done ⊆+ concat callss
    ∧ inserted (out c) = inserted os0 +:+ lines w done +:+ partial
    ∧ match mutex_ c with
      | None => partial = ""
      | Some _ => ∃ call rest,
          done ++ [call] ⊆+ concat callss ∧ partial +:+ rest = line_of call
      end.
Proof.
  intros (done & todo & Hlen & Hout & Hm). destruct (mutex_ c) as [h|].
  - destruct Hm as (call & pre & post & r & _ & _ & Hops & Hperm & Hins & _).
    exists done, (texts pre). split_and!; [|done|].
    + rewrite <- Hperm. by apply submseteq_inserts_r.
    + exists call, (texts post). split.
      * rewrite <- Hperm. apply submseteq_app; [done|].
        apply submseteq_skip, submseteq_nil_l.
      * unfold line_of. rewrite <- texts_write_ops, <- texts_app.
        by rewrite <- Hops.
  - destruct Hm as (Hperm & Hins & _). exists done, "". split_and!; [| |done].
    + rewrite <- Hperm. by apply submseteq_inserts_r.
    + by rewrite app_nil_r.
Qed.

Lemma concat_all_nil todo : (∀ i r, todo !! i = Some r → r = []) → concat todo = [].
Proof.
  induction todo as [|x todo IH]; intros Hall; [done|]. simpl.
  rewrite (Hall 0%nat x eq_refl). apply IH. intros i r. apply (Hall (S i)).
Qed.

Lemma all_done_lookup c i code : all_done c = true → pool c !! i = Some code → code = [].
Proof.
  unfold all_done. rewrite forallb_forall. intros Hall Hi.
  specialize (Hall code). rewrite <- list_elem_of_In in Hall.
  specialize (Hall (list_elem_of_lookup_2 _ _ _ Hi)). by destruct code.
Qed.

Lemma inv_all_done c :
  inv c → all_done c = true →
  mutex_ c = None
  ∧ ∃ order,
      order ≡ₚ concat callss
      ∧ inserted (out c) = inserted os0 +:+ lines w order
      ∧ (order ≠ [] → pending (out c) = "").
Proof.
  intros (done & todo & Hlen & Hout & Hm) Hall. destruct (mutex_ c) as [h|].
  { destruct Hm as (call & pre & post & r & _ & Hpool & _).
    apply (all_done_lookup c h _ Hall) in Hpool. by destruct post. }
  split; [done|]. destruct Hm as (Hperm & Hins & Hpend).
  exists done. split_and!; [|done..].
  rewrite <- Hperm. rewrite concat_all_nil; [by rewrite List.app_nil_r|].
  intros i r Hr.
  destruct (lookup_lt_is_Some_2 (pool c) i) as [code Hi].
  { rewrite <- Hlen. by eapply lookup_lt_Some. }
  pose proof (Hout i code r Hi Hr ltac:(done)) as Hcode.
  rewrite (all_done_lookup c i code Hall Hi) in Hcode.
  destruct (thread_code_head r) as [[_ ?]|[code' Heq]]; [done|congruence].
Qed.

(** *** No deadlock *)

Lemma sum_length_insert (l : list (list instr)) i x code :
  l !! i = Some (x :: code) →
  S (sum_list (length <$> <[i:=code]> l)) = sum_list (length <$> l).
Proof.
  revert i; induction l as [|y l IH]; intros [|i] Hi; simplify_eq/=; [done|].
  rewrite <- (IH i Hi). lia.
Qed.

Lemma not_all_done c :
  all_done c = false → ∃ i x code, pool c !! i = Some (x :: code).
Proof.
  unfold all_done. induction (pool c) as [|y l IH]; [done|]. simpl.
  destruct y as [|x code]; simpl.
  - intros (i & x & code & Hi)%IH. by exists (S i), x, code.
  - intros _. by exists 0%nat, x, code.
Qed.

(** While some thread has code left, some thread can move: the holder of
    the mutex if there is one, and otherwise any thread that has not
    finished, since it is about to lock and the mutex is free. *)
Lemma inv_progress c :
  inv c → all_done c = false →
  ∃ i, (remaining (step c (a_thread i)) < remaining c)%nat.
Proof.
  intros Hinv Hnot. destruct (mutex_ c) as [h|] eqn:Hm.
  - destruct Hinv as (done & todo & _ & _ & Hh). rewrite Hm in Hh.
    destruct Hh as (call & pre & post & r & _ & Hpool & _).
    exists h. unfold remaining.
    destruct post as [|o post]; simpl in Hpool;
      pose proof (sum_length_insert (pool c) h _ _ Hpool) as Hsum;
      simpl; rewrite Hpool; simpl; lia.
  - destruct (not_all_done c Hnot) as (i & x & code & Hi).
    destruct (inv_outside c i _ Hinv Hi) as [?|[code' Heq]]; [by rewrite Hm|done|].
    injection Heq as -> ->. exists i. unfold remaining. simpl. rewrite Hi, Hm. simpl.
    rewrite <- (sum_length_insert (pool c) i _ _ Hi). lia.
Qed.

Lemma inv_can_complete c : inv c → ∃ sched, all_done (exec sched c) = true.
Proof.
  remember (remaining c) as n eqn:Hn. revert c Hn.
  induction n as [n IH] using lt_wf_ind. intros c -> Hinv.
  destruct (all_done c) eqn:Hall; [by exists []|].
  destruct (inv_progress c Hinv Hall) as [i Hlt].
  destruct (IH _ Hlt (step c (a_thread i)) eq_refl (inv_step _ _ Hinv)) as [sched Hs].
  by exists (a_thread i :: sched).
Qed.

End invariant.

(** A run on two threads in which the second thread asks for the mutex
    while the first is in the middle of its line, and the stream passes
    bytes on by itself: the destination gets whole lines. *)
Example two_writers_locked :
  let w := mkWriter None to_cout in
  let a := mkCall (mkLogEntry "t1" "INFO" "auth" "in") 0 in
  let b := mkCall (mkLogEntry "t2" "WARN" "db" "slow") 1 in
  let sched :=
    [a_thread 0; a_thread 0; a_thread 1; a_thread 0; a_spill 1; a_thread 1]
    ++ sequential 2 20 in
  exec sched (init w ostream_new [[a]; [b]])
  = mkConfig None
      (mkOstream "" ("[t1] INFO auth in (worker 0)" +:+ nl
                     +:+ "[t2] WARN db slow (worker 1)" +:+ nl))
      [[]; []].
Proof. by vm_compute. Qed.

(** The same two calls without the [std::lock_guard], under a schedule
    that alternates: the lines are mixed. *)
Example two_writers_unlocked :
  let w := mkWriter None to_cout in
  let a := mkLogEntry "t1" "INFO" "auth" "in" in
  let b := mkLogEntry "t2" "WARN" "db" "slow" in
  let sched := concat (replicate 13 [a_thread 0; a_thread 1]) in
  exec sched
    (mkConfig None ostream_new
       [write_code_unlocked w a 0; write_code_unlocked w b 1])
  = mkConfig None
      (mkOstream "" ("[[t1t2] ] INFOWARN  authdb  inslow (worker  (worker 01))"
                     +:+ nl +:+ nl))
      [[]; []].
Proof. by vm_compute. Qed.

(** C2.  Whatever the schedule of any number of threads that make
    [write] calls on one writer: at most one thread is ever inside [write]'s
    critical section; what the stream has been given is, at every moment,
    the whole lines of calls that returned, then the beginning of the line
    of the one call in progress, if any; and when all threads are through,
    it is the lines of all the calls, each whole, in some order, and all of
    it has reached the destination.  From wherever the schedule has led,
    the threads can still all get through: the mutex never leaves them
    stuck. *)
Theorem concurrent_writes_whole_lines (w : OutputWriter) (os0 : ostream)
    (callss : list (list wcall)) (sched : list action) :
  let c := exec sched (init w os0 callss) in
  (∀ i j ci cj,
     pool c !! i = Some ci → pool c !! j = Some cj →
     in_critical ci = true → in_critical cj = true → i = j)
  ∧ (∃ done partial,
       done ⊆+ concat callss
       ∧ inserted (out c) = inserted os0 +:+ lines w done +:+ partial
       ∧ match mutex_ c with
         | None => partial = ""
         | Some _ => ∃ call rest,
             done ++ [call] ⊆+ concat callss
             ∧ partial +:+ rest
               = rendered (target_is_cout w) (wc_entry call) (wc_worker call)
         end)
  ∧ (all_done c = true →
     ∃ order,
       order ≡ₚ concat callss
       ∧ inserted (out c) = inserted os0 +:+ lines w order
       ∧ (order ≠ [] →
          pending (out c) = ""
          ∧ delivered (out c) = inserted os0 +:+ lines w order))
  ∧ (∃ more, all_done (exec more c) = true).
Proof.
  intros c.
  assert (Hinv : inv w os0 callss c) by apply inv_exec, inv_init.
  split_and!; [| | |by apply (inv_can_complete w os0 callss)].
  - intros i j ci cj. by apply (inv_mutual_exclusion w os0 callss).
  - by apply inv_whole_lines.
  - intros Hall.
    destruct (inv_all_done w os0 callss c Hinv Hall) as (_ & order & Hperm & Hins & Hp).
    exists order. split_and!; [done..|].
    intros Hne. specialize (Hp Hne). split; [done|].
    unfold inserted in Hins at 1. by rewrite Hp, app_nil_r in Hins.
Qed.

Lemma concurrent_writes_whole_lines_witness :
  let w := mkWriter None to_cout in
  let a := mkCall (mkLogEntry "t1" "INFO" "auth" "in") 0 in
  let b := mkCall (mkLogEntry "t2" "WARN" "db" "slow") 1 in
  let sched :=
    [a_thread 0; a_thread 0; a_thread 1; a_thread 0; a_spill 1; a_thread 1]
    ++ sequential 2 20 in
  let c := exec sched (init w ostream_new [[a]; [b]]) in
  all_done c = true
  ∧ ∃ order,
      order ≡ₚ [a; b]
      ∧ inserted (out c) = inserted ostream_new +:+ lines w order
      ∧ (order ≠ [] →
         pending (out c) = ""
         ∧ delivered (out c) = inserted ostream_new +:+ lines w order).
Proof.
  intros w a b sched c. split; [reflexivity|].
  apply (proj1 (proj2 (proj2
           (concurrent_writes_whole_lines w ostream_new [[a]; [b]] sched)))).
  reflexivity.
Defined.

End SchedFacts.

(** ** The whole program *)

Module PipelineFacts.
Import Sched Pipeline StrFacts.

(** *** Reading the input *)

Lemma scan_line_lines s :
  (scan_line s).2 && Str.empty (scan_line s).1.1 = true ∧ s = ""
  ∨ (scan_line s).2 && Str.empty (scan_line s).1.1 = false
    ∧ file_lines s
      = (scan_line s).1.1
        :: (if (scan_line s).2 then [] else file_lines (scan_line s).1.2).
Proof.
  induction s as [|c s IH]; [by left|]. right. simpl.
  destruct (Ascii.eqb c "010"); [done|].
  destruct (scan_line s) as [[l rest] at_eof]. simpl in *.
  rewrite andb_false_r. split; [done|].
  destruct IH as [[He ->]|[_ ->]]; [|done].
  apply andb_true_iff in He as [-> He]. by destruct l.
Qed.

(** One turn of the read loop: it ends when no line is ahead, and
    otherwise gets the first of the lines ahead. *)
Lemma getline_lines_ahead fs conf infile line :
  if fail (getline infile line).1
  then lines_ahead fs conf (m_loop infile line) = []
  else lines_ahead fs conf (m_loop infile line)
       = (getline infile line).2
         :: lines_ahead fs conf (m_loop (getline infile line).1 (getline infile line).2).
Proof.
  destruct infile as [buf [|] [|]]; try done.
  unfold getline, sentry, lines_ahead, good. cbn [eofbit failbit rdbuf negb andb orb].
  destruct (scan_line_lines buf) as [[Hfail Hnil]|[Hfail Hl]];
    destruct (scan_line buf) as [[l rest] at_eof]; cbn [fst snd fail failbit] in *;
    rewrite Hfail.
  - by rewrite Hnil.
  - rewrite Hl. cbn [eofbit failbit rdbuf]. by destruct at_eof.
Qed.

Lemma scan_line_shorter s :
  s ≠ "" → (String.length (scan_line s).1.2 < String.length s)%nat.
Proof.
  induction s as [|c s IH]; [done|]. intros _. simpl.
  destruct (Ascii.eqb c "010"); simpl; [lia|].
  destruct s as [|c' s']; [simpl; lia|].
  specialize (IH ltac:(done)).
  destruct (scan_line (String c' s')) as [[l rest] at_eof]. simpl in *. lia.
Qed.

(** A turn of the read loop that gets a line leaves less to read. *)
Lemma getline_stream_left infile line :
  fail (getline infile line).1 = false →
  (stream_left (getline infile line).1 < stream_left infile)%nat.
Proof.
  destruct infile as [buf [|] [|]]; try done.
  unfold getline, sentry, stream_left, good. cbn [eofbit failbit rdbuf negb andb orb].
  pose proof (scan_line_shorter buf) as Hlt.
  destruct (scan_line_lines buf) as [[Hfail Hnil]|[Hfail _]];
    destruct (scan_line buf) as [[l rest] at_eof] eqn:Hscan;
    cbn [fst snd fail failbit] in *; rewrite Hfail; [done|].
  intros _. cbn [eofbit failbit rdbuf].
  destruct at_eof; simpl; [lia|].
  destruct buf as [|c r]; [done|]. specialize (Hlt ltac:(done)). lia.
Qed.

Lemma read_loop_lines fs conf fuel infile line :
  (stream_left infile < fuel)%nat →
  read_loop fuel infile line = lines_ahead fs conf (m_loop infile line).
Proof.
  revert infile line; induction fuel as [|fuel IH]; intros infile line Hlt; [lia|].
  pose proof (getline_lines_ahead fs conf infile line) as Hl.
  pose proof (getline_stream_left infile line) as Hs.
  cbn [read_loop]. destruct (getline infile line) as [infile' line']. simpl in *.
  destruct (fail infile'); [done|].
  rewrite Hl. f_equal. apply IH. specialize (Hs eq_refl). lia.
Qed.

(** *** Lists of workers *)

Section workers.

Implicit Types (w : worker) (ws : list worker) (i k : nat).

Lemma sum_fmap_insert (f : worker → nat) ws i w w' :
  ws !! i = Some w →
  (sum_list (f <$> <[i:=w']> ws) + f w = sum_list (f <$> ws) + f w')%nat.
Proof.
  revert i; induction ws as [|x ws IH]; intros [|i] Hi; simplify_eq/=; [lia|].
  specialize (IH i Hi). lia.
Qed.

Lemma alter_lookup_Some (f : worker → worker) ws i w :
  ws !! i = Some w → alter f i ws = <[i:=f w]> ws.
Proof.
  revert i; induction ws as [|x ws IH]; intros [|i] Hi; simplify_eq/=; [done|].
  by rewrite (IH i Hi).
Qed.

Lemma alter_lookup_None (f : worker → worker) ws i :
  ws !! i = None → alter f i ws = ws.
Proof.
  revert i; induction ws as [|x ws IH]; intros [|i] Hi; simplify_eq/=; try done.
  by rewrite (IH i Hi).
Qed.

Lemma forallb_lookup (f : worker → bool) ws :
  forallb f ws = true ↔ ∀ i w, ws !! i = Some w → f w = true.
Proof.
  rewrite forallb_forall. split.
  - intros H i w Hi. apply H, list_elem_of_In. by eapply list_elem_of_lookup_2.
  - intros H w [i Hi]%list_elem_of_In%list_elem_of_lookup_1. eauto.
Qed.

Lemma wake_asleep w : w_pc w = asleep → wake w = mkWorker at_pop (w_entry w).
Proof. destruct w as [[] e]; by simpl. Qed.

Lemma wake_awake w : w_pc w ≠ asleep → wake w = w.
Proof. destruct w as [[] e]; by simpl. Qed.

Lemma is_asleep_wake w : is_asleep (wake w) = false.
Proof. by destruct w as [[] e]. Qed.

Lemma is_exited_wake w : is_exited (wake w) = is_exited w.
Proof. by destruct w as [[] e]. Qed.

Lemma hand_wake i w : hand i (wake w) = hand i w.
Proof. by destruct w as [[] e]. Qed.

Lemma weight_wake w : weight (wake w) = weight w.
Proof. by destruct w as [[] e]. Qed.

(** [notify_one]: nobody sleeps and nothing changes, or one sleeper goes
    back to the predicate. *)
Lemma wake_one_cases pick ws :
  (sleepers ws = [] ∧ wake_one pick ws = ws)
  ∨ ∃ i w, ws !! i = Some w ∧ w_pc w = asleep
           ∧ wake_one pick ws = <[i:=mkWorker at_pop (w_entry w)]> ws.
Proof.
  unfold wake_one. destruct (sleepers ws) as [|j l] eqn:Hsl; [by left|]. right.
  destruct (lookup_lt_is_Some_2 (j :: l) (pick `mod` length (j :: l))%nat) as [i Hi].
  { apply Nat.mod_upper_bound. simpl. lia. }
  rewrite Hi. apply list_elem_of_lookup_2, list_elem_of_In in Hi.
  rewrite <- Hsl in Hi. unfold sleepers in Hi. apply filter_In in Hi as [_ Hi].
  destruct (ws !! i) as [w|] eqn:Hw; [|done].
  assert (Hpc : w_pc w = asleep) by (unfold is_asleep in Hi; by destruct (w_pc w)).
  exists i, w. split_and!; [done..|].
  by rewrite (alter_lookup_Some _ _ _ _ Hw), (wake_asleep w Hpc).
Qed.

Lemma count_pc_pos pc ws :
  (0 < count_pc pc ws)%nat → ∃ i w, ws !! i = Some w ∧ w_pc w = pc.
Proof.
  unfold count_pc. induction ws as [|x ws IH]; simpl; [lia|].
  case_bool_decide as Hx.
  - intros _. by exists 0%nat, x.
  - intros (i & w & ? & ?)%IH. by exists (S i), w.
Qed.

Lemma sleepers_nil ws : sleepers ws = [] → count_pc asleep ws = 0%nat.
Proof.
  intros Hsl. destruct (count_pc asleep ws) eqn:Hc; [done|].
  destruct (count_pc_pos asleep ws) as (i & w & Hi & Hpc); [lia|].
  assert (In i (sleepers ws)) as Hin; [|by rewrite Hsl in Hin].
  unfold sleepers. apply filter_In. split.
  - apply in_seq. apply lookup_lt_Some in Hi. lia.
  - rewrite Hi. unfold is_asleep. by rewrite Hpc.
Qed.

Lemma count_pc_insert pc ws i w w' :
  ws !! i = Some w →
  (count_pc pc (<[i:=w']> ws) + (if bool_decide (w_pc w = pc) then 1 else 0)
   = count_pc pc ws + (if bool_decide (w_pc w' = pc) then 1 else 0))%nat.
Proof.
  intros Hi. unfold count_pc.
  exact (sum_fmap_insert (λ w, if bool_decide (w_pc w = pc) then 1 else 0)%nat
           ws i w w' Hi).
Qed.

Lemma count_asleep_wake_all ws : count_pc asleep (wake_all ws) = 0%nat.
Proof.
  unfold count_pc, wake_all. induction ws as [|x ws IH]; [done|].
  rewrite !fmap_cons. simpl. simpl in IH. rewrite IH.
  case_bool_decide as Hx; [|done].
  pose proof (is_asleep_wake x) as Hw. unfold is_asleep in Hw. by rewrite Hx in Hw.
Qed.

Lemma in_hand_from_insert_eq k ws i w w' :
  ws !! i = Some w → hand (k + i) w' = hand (k + i) w →
  in_hand_from k (<[i:=w']> ws) = in_hand_from k ws.
Proof.
  revert i k; induction ws as [|x ws IH]; intros [|i] k Hi Hh; simplify_eq/=.
  - rewrite Nat.add_0_r in Hh. by rewrite Hh.
  - f_equal. apply (IH i (S k) Hi). by rewrite Nat.add_succ_comm.
Qed.

Lemma in_hand_from_insert k ws i w w' :
  ws !! i = Some w →
  in_hand_from k (<[i:=w']> ws) ++ hand (k + i) w
  ≡ₚ in_hand_from k ws ++ hand (k + i) w'.
Proof.
  revert i k; induction ws as [|x ws IH]; intros [|i] k Hi; simplify_eq/=.
  - rewrite Nat.add_0_r. solve_Permutation.
  - specialize (IH i (S k) Hi). rewrite Nat.add_succ_comm in IH.
    rewrite <- !(assoc_L (++)). by rewrite IH.
Qed.

Lemma in_hand_from_fmap_wake k ws : in_hand_from k (wake <$> ws) = in_hand_from k ws.
Proof.
  revert k; induction ws as [|x ws IH]; intros k; [done|]. simpl.
  by rewrite hand_wake, IH.
Qed.

Lemma in_hand_from_replicate k n e :
  in_hand_from k (replicate n (mkWorker at_pop e)) = [].
Proof. revert k; induction n as [|n IH]; intros k; [done|]. simpl. apply IH. Qed.

Lemma in_hand_alter_wake ws i : in_hand (alter wake i ws) = in_hand ws.
Proof.
  destruct (ws !! i) as [w|] eqn:Hi.
  - rewrite (alter_lookup_Some _ _ _ _ Hi).
    apply (in_hand_from_insert_eq 0 ws i w); [done|]. apply hand_wake.
  - by rewrite (alter_lookup_None _ _ _ Hi).
Qed.

Lemma hand_at_alter_wake ws i j : hand_at (alter wake i ws) j = hand_at ws j.
Proof.
  unfold hand_at. rewrite list_lookup_alter. case_decide as Hij; [|done].
  subst j. destruct (ws !! i); [|done]. simpl. apply hand_wake.
Qed.

Lemma hand_at_insert_ne ws i j w : i ≠ j → hand_at (<[i:=w]> ws) j = hand_at ws j.
Proof. intros Hne. unfold hand_at. by rewrite list_lookup_insert_ne. Qed.

Lemma hand_at_insert_eq ws i w :
  (i < length ws)%nat → hand_at (<[i:=w]> ws) i = hand i w.
Proof. intros Hlt. unfold hand_at. by rewrite list_lookup_insert_eq. Qed.

Lemma in_hand_wake_one pick ws : in_hand (wake_one pick ws) = in_hand ws.
Proof.
  destruct (wake_one_cases pick ws) as [[_ ->]|(i & w & Hi & Hpc & ->)]; [done|].
  apply (in_hand_from_insert_eq 0 ws i w); [done|].
  unfold hand. simpl. by rewrite Hpc.
Qed.

Lemma hand_at_wake_one pick ws j : hand_at (wake_one pick ws) j = hand_at ws j.
Proof.
  destruct (wake_one_cases pick ws) as [[_ ->]|(i & w & Hi & Hpc & ->)]; [done|].
  destruct (decide (i = j)) as [<-|Hne]; [|by apply hand_at_insert_ne].
  rewrite hand_at_insert_eq by (by eapply lookup_lt_Some).
  unfold hand_at, hand. rewrite Hi. simpl. by rewrite Hpc.
Qed.

Lemma hand_at_wake_all ws j : hand_at (wake_all ws) j = hand_at ws j.
Proof.
  unfold hand_at, wake_all. rewrite list_lookup_fmap.
  destruct (ws !! j); [|done]. simpl. apply hand_wake.
Qed.

Lemma length_wake_one pick ws : length (wake_one pick ws) = length ws.
Proof.
  destruct (wake_one_cases pick ws) as [[_ ->]|(i & w & Hi & Hpc & ->)]; [done|].
  apply length_insert.
Qed.

Lemma sum_weight_alter_wake ws i :
  sum_list (weight <$> alter wake i ws) = sum_list (weight <$> ws).
Proof.
  destruct (ws !! i) as [w|] eqn:Hi.
  - rewrite (alter_lookup_Some _ _ _ _ Hi).
    pose proof (sum_fmap_insert weight ws i w (wake w) Hi) as H.
    rewrite weight_wake in H. lia.
  - by rewrite (alter_lookup_None _ _ _ Hi).
Qed.



End workers.

(** *** The step functions make these moves *)

Lemma main_step_move fs pick s : main_move fs pick s (main_step fs pick s).
Proof.
  unfold main_step. destruct (s_main s) as [|infile line|code|code|code] eqn:Hm.
  - destruct (fs (log_file (s_conf s))) as [content|] eqn:Hfs.
    + by apply mm_open.
    + by apply mm_open_fail.
  - pose proof (mm_eof fs pick s infile line Hm) as Heof.
    pose proof (mm_skip fs pick s infile line Hm) as Hskip.
    pose proof (mm_push fs pick s infile line) as Hpush.
    unfold parse_record in Hskip, Hpush.
    destruct (getline infile line) as [infile' line']. simpl in *.
    destruct (fail infile'); [by apply Heof|].
    destruct (parse_line line' LogEntry_default) as [[|] entry]; simpl.
    + by apply Hpush.
    + by apply Hskip.
  - by apply mm_mark.
  - destruct (forallb is_exited (s_workers s)) eqn:Hall.
    + by apply mm_joined.
    + apply mm_stay.
  - apply mm_stay.
Qed.

Lemma worker_step_move i s : worker_move i s (worker_step i s).
Proof.
  unfold worker_step.
  destruct (s_workers s !! i) as [[[] e]|] eqn:Hi; try apply wm_stay.
  - unfold pop, pop_ready, queue_empty.
    destruct (queue_ (s_queue s)) as [|front rest] eqn:Hq.
    + destruct (finished_ (s_queue s)) eqn:Hf; simpl.
      * by apply wm_exit.
      * by apply wm_sleep.
    + rewrite orb_true_r. by eapply wm_pop.
  - pose proof (wm_write i s e Hi) as Hw. unfold write in *. exact Hw.
Qed.

Lemma step_move fs s a : move fs s (sys_step fs s a).
Proof.
  destruct a as [pick|i|i]; simpl.
  - eapply mv_main, main_step_move.
  - eapply mv_worker, worker_step_move.
  - apply mv_spurious.
Qed.

(** *** The invariants *)

Section invariants.

Variables (fs : string → option string) (conf : settings) (w0 : OutputWriter)
  (st0 : streams) (diag0 : list string).

Lemma ctl_move s s' : ctl fs conf w0 s → move fs s s' → ctl fs conf w0 s'.
Proof.
  intros (Hconf & Hwr & Hlen & Hfin & Hsl & Hex & Hcode & Hout) Hmove.
  destruct Hmove as [pick s1 Hm|i s1 Hw|i].
  - destruct Hm as [Hm Hfs|content Hm Hfs|infile line Hm Hf|infile line Hm Hf Hp
                    |infile line entry Hm Hf Hp|code Hm|code Hm Hall|];
      unfold ctl; simpl; try rewrite Hm in *; simpl in *;
      split_and!; try done.
    + unfold exit_code. by rewrite <- Hconf, Hfs.
    + unfold exit_code. by rewrite <- Hconf, Hfs.
    + by rewrite length_wake_one.
    + intros Hf'. congruence.
    + intros i w Hi Hw. exfalso.
      destruct (wake_one_cases pick (s_workers s)) as [[_ Heq]|(j & v & Hj & Hpc & Heq)];
        rewrite Heq in Hi.
      * destruct (Hex i w Hi Hw) as [Hf' _]. congruence.
      * rewrite list_lookup_insert in Hi. case_decide as Hij.
        -- destruct Hij as [-> _]. by injection Hi as <-.
        -- destruct (Hex i w Hi Hw) as [Hf' _]. congruence.
    + unfold wake_all. by rewrite length_fmap.
    + intros _ i w Hi. unfold wake_all in Hi. rewrite list_lookup_fmap in Hi.
      destruct (s_workers s !! i) as [v|]; [|done]. injection Hi as <-.
      apply is_asleep_wake.
    + intros i w Hi Hw. unfold wake_all in Hi. rewrite list_lookup_fmap in Hi.
      destruct (s_workers s !! i) as [v|] eqn:Hv; [|done]. injection Hi as <-.
      rewrite is_exited_wake in Hw. by destruct (Hex i v Hv Hw) as [_ ?].
  - assert (Hrun : ∀ code w, s_main s = m_exit code → s_workers s !! i = Some w →
                    is_exited w = true).
    { intros code w Hmx Hi. specialize (Hout code Hmx).
      rewrite forallb_lookup in Hout. eauto. }
    destruct Hw as [e Hi Hq Hf|e Hi Hq Hf|e front rest Hi Hq|e Hi|];
      unfold ctl; simpl; split_and!; try done; try (by rewrite length_insert);
      try (by intros code Hmx; specialize (Hrun code _ Hmx Hi)).
    + intros Hf'. congruence.
    + intros j w Hj Hw. rewrite list_lookup_insert in Hj. case_decide as Hij.
      * destruct Hij as [-> _]. by injection Hj as <-.
      * by apply (Hex j w).
    + intros Hf' j w Hj. rewrite list_lookup_insert in Hj. case_decide as Hij.
      * destruct Hij as [-> _]. by injection Hj as <-.
      * by apply (Hsl Hf' j w).
    + intros Hf' j w Hj. rewrite list_lookup_insert in Hj. case_decide as Hij.
      * destruct Hij as [-> _]. by injection Hj as <-.
      * by apply (Hsl Hf' j w).
    + intros j w Hj Hw. rewrite list_lookup_insert in Hj. case_decide as Hij.
      * destruct Hij as [-> _]. by injection Hj as <-.
      * destruct (Hex j w Hj Hw) as [_ Hnil]. congruence.
    + intros Hf' j w Hj. rewrite list_lookup_insert in Hj. case_decide as Hij.
      * destruct Hij as [-> _]. by injection Hj as <-.
      * by apply (Hsl Hf' j w).
    + intros j w Hj Hw. rewrite list_lookup_insert in Hj. case_decide as Hij.
      * destruct Hij as [-> _]. by injection Hj as <-.
      * by apply (Hex j w).
  - unfold ctl; simpl; split_and!; try done.
    + by rewrite length_alter.
    + intros Hf' j w Hj. rewrite list_lookup_alter in Hj. case_decide as Hij.
      * subst j. destruct (s_workers s !! i) as [v|]; simplify_eq/=.
        apply is_asleep_wake.
      * by apply (Hsl Hf' j w).
    + intros j w Hj Hw. rewrite list_lookup_alter in Hj. case_decide as Hij.
      * subst j. destruct (s_workers s !! i) as [v|] eqn:Hv; simplify_eq/=.
        rewrite is_exited_wake in Hw. by apply (Hex i v).
      * by apply (Hex j w).
    + intros code Hmx. specialize (Hout code Hmx). rewrite forallb_lookup in Hout |- *.
      intros j w Hj. rewrite list_lookup_alter in Hj. case_decide as Hij.
      * subst j. destruct (s_workers s !! i) as [v|] eqn:Hv; simplify_eq/=.
        rewrite is_exited_wake. by apply (Hout i v).
      * by apply (Hout j w).
Qed.

Lemma lines_ahead_eof infile line :
  fail (getline infile line).1 = true → lines_ahead fs conf (m_loop infile line) = [].
Proof.
  intros Hf. pose proof (getline_lines_ahead fs conf infile line) as H.
  by rewrite Hf in H.
Qed.

Lemma lines_ahead_next infile line :
  fail (getline infile line).1 = false →
  lines_ahead fs conf (m_loop infile line)
  = (getline infile line).2
    :: lines_ahead fs conf (m_loop (getline infile line).1 (getline infile line).2).
Proof.
  intros Hf. pose proof (getline_lines_ahead fs conf infile line) as H.
  by rewrite Hf in H.
Qed.

Lemma cer_move s s' : cer fs conf diag0 s → move fs s s' → cer fs conf diag0 s'.
Proof.
  intros [Hconf Hcer] Hmove. destruct Hmove as [pick s1 Hm|i s1 Hw|i].
  - destruct Hm as [Hm Hfs|content Hm Hfs|infile line Hm Hf|infile line Hm Hf Hp
                    |infile line entry Hm Hf Hp|code Hm|code Hm Hall|];
      try (by split); unfold cer; cbn [s_conf s_cerr s_main]; (split; [done|]);
      rewrite <- Hcer, Hm; try done.
    + rewrite <- (assoc_L (++)). f_equal. simpl. by rewrite <- Hconf, Hfs.
    + f_equal. simpl. by rewrite <- Hconf, Hfs.
    + f_equal. unfold cerr_ahead. by rewrite (lines_ahead_eof _ _ Hf).
    + rewrite <- (assoc_L (++)). f_equal. unfold cerr_ahead.
      rewrite (lines_ahead_next infile line Hf). unfold diags_of at 2. simpl.
      by rewrite Hp.
    + f_equal. unfold cerr_ahead.
      rewrite (lines_ahead_next infile line Hf). unfold diags_of at 2. simpl.
      by rewrite Hp.
  - by destruct Hw.
  - done.
Qed.

(** [notify_one] and the count of sleepers. *)
Lemma wk_move s s' : wk s → move fs s s' → wk s'.
Proof.
  unfold wk. intros Hwk Hmove. destruct Hmove as [pick s1 Hm|i s1 Hw|i].
  - destruct Hm as [Hm Hfs|content Hm Hfs|infile line Hm Hf|infile line Hm Hf Hp
                    |infile line entry Hm Hf Hp|code Hm|code Hm Hall|]; simpl; try done.
    + destruct (wake_one_cases pick (s_workers s)) as [[Hsl ->]|(j & v & Hj & Hpc & ->)].
      * rewrite (sleepers_nil _ Hsl). lia.
      * pose proof (count_pc_insert asleep _ j v (mkWorker at_pop (w_entry v)) Hj) as Ha.
        pose proof (count_pc_insert at_pop _ j v (mkWorker at_pop (w_entry v)) Hj) as Hp'.
        simpl in Ha, Hp'. rewrite Hpc in Ha, Hp'. simpl in Ha, Hp'.
        rewrite length_app. simpl. intros Hpos.
        assert (length (queue_ (s_queue s)) ≤ count_pc at_pop (s_workers s))%nat
          by (apply Hwk; lia). lia.
    + rewrite count_asleep_wake_all. lia.
  - destruct Hw as [e Hi Hq Hf|e Hi Hq Hf|e front rest Hi Hq|e Hi|]; simpl; try done.
    + rewrite Hq. simpl. lia.
    + rewrite Hq. simpl. lia.
    + pose proof (count_pc_insert asleep _ i _ (mkWorker at_write front) Hi) as Ha.
      pose proof (count_pc_insert at_pop _ i _ (mkWorker at_write front) Hi) as Hp'.
      simpl in Ha, Hp'. rewrite Hq in Hwk. simpl in Hwk. intros Hpos.
      assert (S (length rest) ≤ count_pc at_pop (s_workers s))%nat by (apply Hwk; lia).
      lia.
    + pose proof (count_pc_insert asleep _ i _ (mkWorker at_pop e) Hi) as Ha.
      pose proof (count_pc_insert at_pop _ i _ (mkWorker at_pop e) Hi) as Hp'.
      simpl in Ha, Hp'. intros Hpos.
      assert (length (queue_ (s_queue s)) ≤ count_pc at_pop (s_workers s))%nat
        by (apply Hwk; lia). lia.
  - simpl. destruct (s_workers s !! i) as [w|] eqn:Hi.
    + rewrite (alter_lookup_Some _ _ _ _ Hi).
      pose proof (count_pc_insert asleep _ i _ (wake w) Hi) as Ha.
      pose proof (count_pc_insert at_pop _ i _ (wake w) Hi) as Hp'.
      destruct w as [[] e]; simpl in Ha, Hp'; intros Hpos;
        try (assert (length (queue_ (s_queue s)) ≤ count_pc at_pop (s_workers s))%nat
               by (apply Hwk; lia)); lia.
    + by rewrite (alter_lookup_None _ _ _ Hi).
Qed.

Lemma by_worker_snoc_eq i l e :
  by_worker i (l ++ [mkCall e (Z.of_nat i)]) = by_worker i l ++ [mkCall e (Z.of_nat i)].
Proof. unfold by_worker. rewrite filter_app. f_equal. by rewrite filter_cons_True. Qed.

Lemma by_worker_snoc_ne i j l e :
  i ≠ j → by_worker j (l ++ [mkCall e (Z.of_nat i)]) = by_worker j l.
Proof.
  intros Hne. unfold by_worker. rewrite filter_app, filter_cons_False.
  - by rewrite List.app_nil_r.
  - simpl. lia.
Qed.

Lemma records_of_cons_Some line lines entry :
  parse_record line = Some entry → records_of (line :: lines) = entry :: records_of lines.
Proof. intros H. unfold records_of. simpl. by rewrite H. Qed.

Lemma records_of_cons_None line lines :
  parse_record line = None → records_of (line :: lines) = records_of lines.
Proof. intros H. unfold records_of. simpl. by rewrite H. Qed.

Lemma final_msg_running s i w :
  ctl fs conf w0 s → s_workers s !! i = Some w → is_exited w = false →
  final_msg (s_main s) = "".
Proof.
  intros (_ & _ & _ & _ & _ & _ & _ & Hout) Hi Hw.
  destruct (s_main s) as [| | | |code] eqn:Hm; try done.
  specialize (Hout code eq_refl). rewrite forallb_lookup in Hout.
  specialize (Hout i w Hi). congruence.
Qed.

Lemma dat_main_move pick s s' :
  dat fs conf st0 s → main_move fs pick s s' → dat fs conf st0 s'.
Proof.
  intros (popped & written & Hconf & H1 & H3 & H4 & H5 & Hc & Hf) Hm.
  exists popped, written.
  destruct Hm as [Hm Hfs|content Hm Hfs|infile line Hm Hf'|infile line Hm Hf' Hp
                  |infile line entry Hm Hf' Hp|code Hm|code Hm Hall|];
    cbn [s_conf s_main s_queue s_workers s_writer s_out s_cerr];
    rewrite ?Hm in *; split_and!; try done.
  - assert (Hnil : lines_ahead fs conf m_open = [])
      by (simpl; by rewrite <- Hconf, Hfs).
    by rewrite Hnil in *.
  - assert (Hall : lines_ahead fs conf m_open = file_lines content)
      by (simpl; by rewrite <- Hconf, Hfs).
    by rewrite Hall in *.
  - rewrite <- H1. rewrite (lines_ahead_eof _ _ Hf'). done.
  - rewrite <- H1. rewrite (lines_ahead_next infile line Hf').
    by rewrite (records_of_cons_None _ _ Hp).
  - rewrite <- H1. rewrite (lines_ahead_next infile line Hf').
    rewrite (records_of_cons_Some _ _ _ Hp). simpl. by rewrite <- (assoc_L (++)).
  - by rewrite in_hand_wake_one.
  - intros i. by rewrite hand_at_wake_one.
  - by rewrite length_wake_one.
  - unfold in_hand, wake_all. by rewrite in_hand_from_fmap_wake.
  - intros i. by rewrite hand_at_wake_all.
  - unfold wake_all. by rewrite length_fmap.
  - cbn [final_msg]. destruct (Z.eqb code 0); [|done].
    cbn [cout]. rewrite inserted_apply_op, Hc. cbn [final_msg text].
    by rewrite !app_nil_r, <- !app_assoc.
  - by destruct (Z.eqb code 0).
Qed.

Lemma dat_idle_move i s w w' :
  dat fs conf st0 s → s_workers s !! i = Some w → hand i w = [] → hand i w' = [] →
  dat fs conf st0
    (mkSys (s_conf s) (s_main s) (s_queue s) (<[i:=w']> (s_workers s)) (s_writer s)
       (s_out s) (s_cerr s)).
Proof.
  intros (popped & written & Hconf & H1 & H3 & H4 & H5 & Hc & Hf) Hi Hw Hw'.
  exists popped, written. cbn [s_conf s_main s_queue s_workers s_writer s_out s_cerr].
  split_and!; try done.
  - unfold in_hand. rewrite (in_hand_from_insert_eq 0 _ i w w' Hi); [done|].
    simpl. by rewrite Hw, Hw'.
  - intros j. destruct (decide (i = j)) as [<-|Hne].
    + rewrite hand_at_insert_eq by (by eapply lookup_lt_Some).
      rewrite Hw', <- (H4 i). unfold hand_at. by rewrite Hi, Hw.
    + by rewrite hand_at_insert_ne.
  - by rewrite length_insert.
Qed.

Lemma dat_worker_move i s s' :
  ctl fs conf w0 s → dat fs conf st0 s → worker_move i s s' → dat fs conf st0 s'.
Proof.
  intros Hctl Hdat Hw.
  destruct Hw as [e Hi Hq Hfin|e Hi Hq Hfin|e front rest Hi Hq|e Hi|]; try done.
  - by apply (dat_idle_move i s _ _ Hdat Hi).
  - by apply (dat_idle_move i s _ _ Hdat Hi).
  - destruct Hdat as (popped & written & Hconf & H1 & H3 & H4 & H5 & Hc & Hf).
    pose proof (lookup_lt_Some _ _ _ Hi) as Hlt.
    exists (popped ++ [mkCall front (Z.of_nat i)]), written.
    cbn [s_conf s_main s_queue s_workers s_writer s_out s_cerr queue_].
    split_and!; try done.
    + rewrite <- H1, Hq, fmap_app. simpl. by rewrite <- (assoc_L (++)).
    + pose proof (in_hand_from_insert 0 _ i _ (mkWorker at_write front) Hi) as Hp.
      simpl in Hp. unfold hand in Hp. simpl in Hp. rewrite List.app_nil_r in Hp.
      unfold in_hand. rewrite Hp, (assoc_L (++)). by rewrite H3.
    + intros j. destruct (decide (i = j)) as [<-|Hne].
      * rewrite hand_at_insert_eq by done. rewrite by_worker_snoc_eq, <- (H4 i).
        unfold hand_at. rewrite Hi. unfold hand. simpl. by rewrite List.app_nil_r.
      * rewrite hand_at_insert_ne by done. by rewrite by_worker_snoc_ne.
    + intros c [Hc'| ->%list_elem_of_singleton]%elem_of_app.
      * destruct (H5 c Hc') as (k & Hk & Hid). exists k. by rewrite length_insert.
      * exists i. by rewrite length_insert.
  - pose proof (final_msg_running s i _ Hctl Hi eq_refl) as Hmsg.
    destruct Hdat as (popped & written & Hconf & H1 & H3 & H4 & H5 & Hc & Hf).
    pose proof (lookup_lt_Some _ _ _ Hi) as Hlt.
    exists popped, (written ++ [mkCall e (Z.of_nat i)]).
    destruct (write_target (s_writer s) e (Z.of_nat i) (s_out s)) as [Ht Hother].
    cbn [s_conf s_main s_queue s_workers s_writer s_out s_cerr queue_].
    split_and!; try done.
    + pose proof (in_hand_from_insert 0 _ i _ (mkWorker at_pop e) Hi) as Hp.
      simpl in Hp. unfold hand in Hp. simpl in Hp. rewrite List.app_nil_r in Hp.
      rewrite <- H3, <- (assoc_L (++)). f_equiv. unfold in_hand.
      rewrite <- Hp. apply Permutation_app_comm.
    + intros j. destruct (decide (i = j)) as [<-|Hne].
      * rewrite hand_at_insert_eq by done. rewrite by_worker_snoc_eq, <- (H4 i).
        unfold hand_at. rewrite Hi. unfold hand. simpl. by rewrite List.app_nil_r.
      * rewrite hand_at_insert_ne by done. rewrite by_worker_snoc_ne by done.
        apply H4.
    + intros c Hc'. destruct (H5 c Hc') as (k & Hk & Hid). exists k.
      by rewrite length_insert.
    + rewrite Hmsg in *. rewrite SchedFacts.lines_snoc. unfold line_of.
      cbn [wc_entry wc_worker]. unfold target_is_cout in *.
      destruct (target_ (s_writer s)); cbn [get_target] in Ht.
      * rewrite Ht. unfold inserted at 1. cbn [pending delivered]. rewrite Hc.
        by rewrite !app_nil_r, <- !app_assoc.
      * by rewrite Hother, Hc.
    + rewrite SchedFacts.lines_snoc. unfold line_of.
      cbn [wc_entry wc_worker]. unfold target_is_cout in *.
      destruct (target_ (s_writer s)); cbn [get_target] in Ht.
      * by rewrite Hother, Hf.
      * rewrite Ht. unfold inserted at 1. cbn [pending delivered]. rewrite Hf.
        by rewrite !app_nil_r, <- ?app_assoc.
Qed.

Lemma dat_spurious i s :
  dat fs conf st0 s →
  dat fs conf st0
    (mkSys (s_conf s) (s_main s) (s_queue s) (alter wake i (s_workers s)) (s_writer s)
       (s_out s) (s_cerr s)).
Proof.
  intros (popped & written & Hconf & H1 & H3 & H4 & H5 & Hc & Hf).
  exists popped, written. cbn [s_conf s_main s_queue s_workers s_writer s_out s_cerr].
  split_and!; try done.
  - by rewrite in_hand_alter_wake.
  - intros j. by rewrite hand_at_alter_wake.
  - by rewrite length_alter.
Qed.

Lemma dat_move s s' :
  ctl fs conf w0 s → dat fs conf st0 s → move fs s s' → dat fs conf st0 s'.
Proof.
  intros Hctl Hdat Hmove. destruct Hmove as [pick s1 Hm|i s1 Hw|i].
  - by eapply dat_main_move.
  - by eapply dat_worker_move.
  - by apply dat_spurious.
Qed.

(** *** Moves left *)






Lemma good_start n :
  let s := mkSys conf m_open ThreadSafeQueue_new
             (replicate n (mkWorker at_pop LogEntry_default)) w0 st0 diag0 in
  n = Z.to_nat (worker_count conf) → good_state fs conf w0 st0 diag0 s.
Proof.
  intros s Hn. unfold good_state. split_and!.
  - unfold ctl. simpl. split_and!; try done.
    + by rewrite length_replicate.
    + by intros i w [-> _]%lookup_replicate.
  - exists [], []. cbn [s s_conf s_main s_queue s_workers s_writer s_out s_cerr].
    split_and!; try done.
    + unfold in_hand. by rewrite in_hand_from_replicate.
    + intros i. unfold hand_at, by_worker. simpl.
      destruct (replicate _ _ !! i) as [w|] eqn:Hi; [|done].
      by apply lookup_replicate in Hi as [-> _].
    + intros c Hc. by apply elem_of_nil in Hc.
    + unfold lines. simpl. by destruct (target_is_cout w0); rewrite !app_nil_r.
    + unfold lines. simpl. by destruct (target_is_cout w0); rewrite !app_nil_r.
  - by split.
  - unfold wk. simpl. lia.
Qed.

End invariants.

(** *** From the start of [main] *)

Section reachable.

Variables (getenv : string → option string) (can_open : string → bool)
  (fs : string → option string) (st0 : streams).

Local Abbreviation conf := (read_settings getenv).
Local Abbreviation w0 := (OutputWriter_new can_open (output_path conf)).1.
Local Abbreviation diag0 := (OutputWriter_new can_open (output_path conf)).2.
Local Abbreviation s0 := (boot getenv can_open st0).

Local Abbreviation good_state := (Pipeline.good_state fs conf w0 st0 diag0).

Lemma boot_eq :
  s0 = mkSys conf m_open ThreadSafeQueue_new
         (replicate (Z.to_nat (worker_count conf)) (mkWorker at_pop LogEntry_default))
         w0 st0 diag0.
Proof.
  unfold boot. by destruct (OutputWriter_new can_open (output_path conf)).
Qed.

Lemma worker_count_pos : (1 ≤ worker_count conf)%Z.
Proof. unfold read_settings. simpl. destruct (getenv "WORKER_COUNT"); lia. Qed.

Lemma good_boot : good_state s0.
Proof. rewrite boot_eq. by apply good_start. Qed.

Lemma good_move s s' : good_state s → move fs s s' → good_state s'.
Proof.
  intros (Hctl & Hdat & Hcer & Hwk) Hmove. split_and!.
  - by eapply ctl_move.
  - by eapply dat_move.
  - by eapply cer_move.
  - by eapply wk_move.
Qed.

Lemma good_exec sched s : good_state s → good_state (sys_run fs sched s).
Proof.
  revert s; induction sched as [|a sched IH]; intros s Hs; [done|].
  apply IH. eapply good_move; [done|]. apply step_move.
Qed.

Lemma good_reachable sched : good_state (sys_run fs sched s0).
Proof. apply good_exec, good_boot. Qed.



Lemma in_hand_from_exited k ws :
  forallb is_exited ws = true → in_hand_from k ws = [].
Proof.
  revert k; induction ws as [|x ws IH]; intros k; [done|]. simpl.
  intros [Hx Hws]%andb_true_iff. rewrite (IH _ Hws).
  by destruct x as [[] e].
Qed.




(** A state [main] has returned from: every worker is out, nothing is
    queued or in a hand, nothing is left to read. *)
Lemma good_exit s code :
  good_state s → s_main s = m_exit code →
  forallb is_exited (s_workers s) = true ∧ queue_ (s_queue s) = []
  ∧ code = exit_code fs conf.
Proof.
  intros ((_ & _ & Hlen & _ & _ & Hex & Hcode & Hout) & _) Hm.
  specialize (Hout code Hm). split_and!; [done| |by rewrite Hm in Hcode].
  destruct (lookup_lt_is_Some_2 (s_workers s) 0) as [w Hw].
  { rewrite Hlen. pose proof worker_count_pos. lia. }
  pose proof Hout as Hall. rewrite forallb_lookup in Hall.
  by destruct (Hex 0%nat w Hw (Hall _ _ Hw)) as [_ ?].
Qed.

End reachable.


(** X2.  When [main] has returned, every Record of the input has been
    written exactly once: the lines written are the Records of the input in
    some order.  The value returned is 0 if the input opened and 1 if not,
    and the console ends with the completion message exactly in the first
    case.  Every worker has left its loop and the queue is empty. *)
Theorem exit_every_record_written_once (getenv : string → option string)
    (can_open : string → bool) (fs : string → option string) (st0 : streams)
    (sched : list turn) (code : Z) :
  let conf := read_settings getenv in
  let w := (OutputWriter_new can_open (output_path conf)).1 in
  let s := sys_run fs sched (boot getenv can_open st0) in
  s_main s = m_exit code →
  code = exit_code fs conf
  ∧ forallb is_exited (s_workers s) = true
  ∧ queue_ (s_queue s) = []
  ∧ ∃ written : list wcall,
      wc_entry <$> written ≡ₚ records_of (lines_ahead fs conf m_open)
      ∧ inserted (cout (s_out s))
        = inserted (cout st0) +:+ (if target_is_cout w then lines w written else "")
          +:+ (if Z.eqb code 0 then complete_msg else "")
      ∧ inserted (fout (s_out s))
        = inserted (fout st0) +:+ (if target_is_cout w then "" else lines w written).
Proof.
  intros conf w s Hm. subst conf w.
  pose proof (good_reachable getenv can_open fs st0 sched) as Hgood. fold s in Hgood.
  destruct (good_exit getenv can_open fs st0 s code Hgood Hm) as (Hall & Hq & Hcode).
  destruct Hgood
    as ((_ & Hwr & _) & (popped & written & _ & H1 & H3 & _ & _ & Hc & Hf) & _).
  rewrite Hwr in Hc, Hf. rewrite Hm in H1, Hc. rewrite Hq in H1.
  unfold in_hand in H3. rewrite (in_hand_from_exited 0 _ Hall) in H3.
  rewrite List.app_nil_r in H3. simpl in H1. rewrite List.app_nil_r in H1.
  split_and!; [done..|]. exists written. split_and!; [|done..].
  by rewrite H3, H1.
Qed.

Lemma exit_every_record_written_once_witness :
  let getenv := λ k : string, if String.eqb k "WORKER_COUNT" then Some "2" else None in
  let can_open := λ _ : string, false in
  let fs := λ _ : string,
    Some ("2024-01-01 10:00:00 INFO auth one" +:+ nl +:+ "bad line" +:+ nl
          +:+ "2024-01-01 10:00:01 WARN db two" +:+ nl) in
  let st0 := mkStreams ostream_new ostream_new in
  let sched := [a_worker 1; a_main 0; a_main 0; a_worker 0; a_main 0; a_main 0;
                a_worker 1; a_worker 1; a_worker 0; a_main 0; a_main 0;
                a_worker 0; a_worker 1; a_worker 1; a_main 0] in
  let conf := read_settings getenv in
  let w := (OutputWriter_new can_open (output_path conf)).1 in
  let s := sys_run fs sched (boot getenv can_open st0) in
  s_main s = m_exit 0
  ∧ 0%Z = exit_code fs conf
  ∧ forallb is_exited (s_workers s) = true
  ∧ queue_ (s_queue s) = []
  ∧ ∃ written : list wcall,
      wc_entry <$> written ≡ₚ records_of (lines_ahead fs conf m_open)
      ∧ inserted (cout (s_out s))
        = inserted (cout st0) +:+ (if target_is_cout w then lines w written else "")
          +:+ (if Z.eqb 0 0 then complete_msg else "")
      ∧ inserted (fout (s_out s))
        = inserted (fout st0) +:+ (if target_is_cout w then "" else lines w written).
Proof.
  intros getenv can_open fs st0 sched conf w s.
  assert (Hm : s_main s = m_exit 0) by (vm_compute; reflexivity).
  split; [exact Hm|].
  exact (exit_every_record_written_once getenv can_open fs st0 sched 0 Hm).
Defined.





(** X6.  What goes to [std::cerr]: first what the constructor of the
    writer reports, then either the one message that the input cannot be
    opened, or one message for each line of the input that gives no Record,
    in line order.  At every moment a front part of that has been sent, and
    all of it once [main] has returned. *)
Theorem run_diagnostics (getenv : string → option string)
    (can_open : string → bool) (fs : string → option string) (st0 : streams)
    (sched : list turn) :
  let conf := read_settings getenv in
  let s := sys_run fs sched (boot getenv can_open st0) in
  let expected :=
    (OutputWriter_new can_open (output_path conf)).2
    ++ match fs (log_file conf) with
       | Some content => diags_of (file_lines content)
       | None => [open_diag (log_file conf)]
       end in
  s_cerr s `prefix_of` expected
  ∧ (∀ code, s_main s = m_exit code → s_cerr s = expected).
Proof.
  intros conf s expected. subst conf expected.
  destruct (good_reachable getenv can_open fs st0 sched) as (_ & _ & (_ & Hcer) & _).
  fold s in Hcer. change (cerr_ahead fs (read_settings getenv) m_open) with
    (match fs (log_file (read_settings getenv)) with
     | Some content => diags_of (file_lines content)
     | None => [open_diag (log_file (read_settings getenv))]
     end) in Hcer.
  rewrite <- Hcer. split; [by apply prefix_app_r|].
  intros code ->. simpl. by rewrite List.app_nil_r.
Qed.

(** X7.  When the input cannot be opened nothing is ever written to the
    console or to the output file, not even the completion message; [main]
    returns 1, and besides what the constructor of the writer reported the
    only diagnostic is the message that the input cannot be opened. *)
Theorem unopenable_input_writes_nothing (getenv : string → option string)
    (can_open : string → bool) (fs : string → option string) (st0 : streams)
    (sched : list turn) :
  let conf := read_settings getenv in
  let s := sys_run fs sched (boot getenv can_open st0) in
  fs (log_file conf) = None →
  inserted (cout (s_out s)) = inserted (cout st0)
  ∧ inserted (fout (s_out s)) = inserted (fout st0)
  ∧ (∀ code, s_main s = m_exit code →
       code = 1%Z
       ∧ s_cerr s = (OutputWriter_new can_open (output_path conf)).2
                    ++ [open_diag (log_file conf)]).
Proof.
  intros conf s Hfs. subst conf.
  pose proof (good_reachable getenv can_open fs st0 sched) as Hgood. fold s in Hgood.
  pose proof (good_exit getenv can_open fs st0 s) as Hexit.
  destruct Hgood
    as (_ & (popped & written & _ & H1 & H3 & _ & _ & Hc & Hf) & (_ & Hcer) & _).
  unfold cerr_ahead at 2 in Hcer. unfold lines_ahead at 2 in H1.
  rewrite Hfs in H1, Hcer. change (records_of []) with (@nil LogEntry) in H1.
  apply app_eq_nil in H1 as [Hp _]. apply fmap_nil_inv in Hp. subst popped.
  apply Permutation_nil_r, app_eq_nil in H3 as [-> _].
  assert (Hfin : final_msg (s_main s) = "").
  { destruct (s_main s) as [| | | |code] eqn:Hm; try done.
    destruct (Hexit code) as (_ & _ & ->); [by apply good_reachable|done|].
    unfold exit_code. by rewrite Hfs. }
  rewrite Hfin in Hc. unfold lines in Hc, Hf. simpl in Hc, Hf.
  split_and!.
  - rewrite Hc. destruct (target_is_cout _); by rewrite !app_nil_r.
  - rewrite Hf. destruct (target_is_cout _); by rewrite !app_nil_r.
  - intros code Hm.
    destruct (Hexit code) as (_ & _ & ->); [by apply good_reachable|done|].
    split; [unfold exit_code; by rewrite Hfs|].
    rewrite <- Hcer, Hm. simpl. by rewrite List.app_nil_r.
Qed.

Lemma unopenable_input_writes_nothing_witness :
  let getenv := λ _ : string, @None string in
  let can_open := λ _ : string, true in
  let fs := λ _ : string, @None string in
  let st0 := mkStreams ostream_new ostream_new in
  let sched := [a_worker 0; a_main 0; a_main 0; a_worker 0; a_worker 1; a_spurious 2] in
  let conf := read_settings getenv in
  let s := sys_run fs sched (boot getenv can_open st0) in
  fs (log_file conf) = None
  ∧ inserted (cout (s_out s)) = inserted (cout st0)
  ∧ inserted (fout (s_out s)) = inserted (fout st0)
  ∧ (∀ code, s_main s = m_exit code →
       code = 1%Z
       ∧ s_cerr s = (OutputWriter_new can_open (output_path conf)).2
                    ++ [open_diag (log_file conf)]).
Proof.
  intros getenv can_open fs st0 sched conf s. split; [reflexivity|].
  exact (unopenable_input_writes_nothing getenv can_open fs st0 sched eq_refl).
Defined.

Lemma count_pc_lookup pc ws i w :
  ws !! i = Some w → w_pc w = pc → (0 < count_pc pc ws)%nat.
Proof.
  unfold count_pc. revert i. induction ws as [|x ws IH]; intros [|i] Hi Hpc; try done.
  - simpl in Hi. simplify_eq. rewrite fmap_cons. simpl.
    rewrite bool_decide_eq_true_2 by done. lia.
  - simpl in Hi. rewrite fmap_cons. simpl. specialize (IH i Hi Hpc). lia.
Qed.

(** X8.  No wakeup is lost.  At every moment of every run: while some
    worker sleeps in [pop], the Records queued are no more than the workers
    that are about to test the queue; and whenever a Record is queued, some
    worker is awake and has not left its loop. *)
Theorem no_lost_wakeup (getenv : string → option string)
    (can_open : string → bool) (fs : string → option string) (st0 : streams)
    (sched : list turn) :
  let s := sys_run fs sched (boot getenv can_open st0) in
  ((0 < count_pc asleep (s_workers s))%nat →
   (length (queue_ (s_queue s)) ≤ count_pc at_pop (s_workers s))%nat)
  ∧ (queue_ (s_queue s) ≠ [] →
     ∃ i w, s_workers s !! i = Some w ∧ (w_pc w = at_pop ∨ w_pc w = at_write)).
Proof.
  intros s.
  destruct (good_reachable getenv can_open fs st0 sched)
    as ((_ & _ & Hlen & _ & _ & Hex & _) & _ & _ & Hwk).
  fold s in Hlen, Hex, Hwk. unfold wk in Hwk. split; [done|].
  intros Hq. destruct (decide (0 < count_pc asleep (s_workers s))%nat) as [Hs|Hs].
  - specialize (Hwk Hs).
    destruct (count_pc_pos at_pop (s_workers s)) as (i & w & Hi & Hpc).
    { destruct (queue_ (s_queue s)); [done|]. simpl in Hwk. lia. }
    exists i, w. by split; [|left].
  - destruct (lookup_lt_is_Some_2 (s_workers s) 0) as [w Hw].
    { rewrite Hlen. pose proof (worker_count_pos getenv). lia. }
    exists 0%nat, w. split; [done|].
    destruct (w_pc w) eqn:Hpc; [by left| |by right|].
    + destruct Hs. by apply (count_pc_lookup asleep _ 0 w).
    + destruct (Hex 0%nat w Hw) as [_ ?]; [|done]. unfold is_exited. by rewrite Hpc.
Qed.



End PipelineFacts.

(** ** main: the settings *)

Section settings_facts.

Import StrFacts.









End settings_facts.

(** ** main: the read loop *)

Section read_loop_facts.

Import Pipeline StrFacts.

Lemma file_lines_last l :
  has_newline l = false → file_lines l = if Str.empty l then [] else [l].
Proof.
  induction l as [|c l IH]; [done|]. cbn [has_newline file_lines Str.empty].
  destruct (Ascii.eqb c "010"); [done|]. intros Hl. rewrite (IH Hl).
  by destruct l.
Qed.

Lemma file_lines_line l rest :
  has_newline l = false → file_lines (l +:+ nl +:+ rest) = l :: file_lines rest.
Proof.
  induction l as [|c l IH]; [done|]. cbn [has_newline]. rewrite app_cons.
  cbn [file_lines]. destruct (Ascii.eqb c "010"); [done|]. intros Hl.
  by rewrite (IH Hl).
Qed.

Lemma file_lines_joined ls last :
  Forall (λ l, has_newline l = false) ls → has_newline last = false →
  file_lines (Str.cat ((λ l, l +:+ nl) <$> ls) +:+ last)
  = ls ++ (if Str.empty last then [] else [last]).
Proof.
  intros Hls Hlast. induction Hls as [|l ls Hl _ IH].
  - by apply file_lines_last.
  - rewrite fmap_cons, cat_cons, <- !app_assoc.
    by rewrite (file_lines_line l _ Hl), IH.
Qed.

(** X12.  The read loop of [main] reads back what was joined: on a file
    made of lines without a newline character, each followed by one newline,
    and possibly a last piece without one, [std::getline] yields those
    lines in order, then the last piece if it is not empty, and then fails.
    A final newline gives no empty line. *)
Theorem read_loop_round_trip (ls : list string) (last line0 : string) (fuel : nat) :
  let content := Str.cat ((λ l, l +:+ nl) <$> ls) +:+ last in
  Forall (λ l, has_newline l = false) ls → has_newline last = false →
  (String.length content + 1 < fuel)%nat →
  read_loop fuel (istringstream_new content) line0
  = ls ++ (if Str.empty last then [] else [last]).
Proof.
  intros content Hls Hlast Hfuel.
  rewrite (PipelineFacts.read_loop_lines (λ _, None) (read_settings (λ _, None))).
  - by apply file_lines_joined.
  - unfold stream_left. cbn. lia.
Qed.

Lemma read_loop_round_trip_witness :
  let ls := ["2024-01-01 10:00:00 INFO auth one"; ""; "bad line"] in
  let content := Str.cat ((λ l, l +:+ nl) <$> ls) +:+ "tail" in
  Forall (λ l, has_newline l = false) ls
  ∧ has_newline "tail" = false
  ∧ (String.length content + 1 < 100)%nat
  ∧ read_loop 100 (istringstream_new content) "" = ls ++ ["tail"].
Proof.
  intros ls content.
  assert (Hls : Forall (λ l, has_newline l = false) ls) by (repeat constructor).
  assert (Hfuel : (String.length content + 1 < 100)%nat) by (vm_compute; lia).
  split_and!; [exact Hls|reflexivity|exact Hfuel|].
  exact (read_loop_round_trip ls "tail" "" 100 Hls eq_refl Hfuel).
Defined.

End read_loop_facts.

(** ** Records, read and written *)

Section record_facts.

Import StrFacts.

Lemma has_newline_app a b : has_newline (a +:+ b) = has_newline a || has_newline b.
Proof.
  induction a as [|c a IH]; [done|]. rewrite app_cons. cbn [has_newline].
  by rewrite IH, orb_assoc.
Qed.

Lemma no_space_no_newline s : no_space s = true → has_newline s = false.
Proof.
  induction s as [|c s IH]; [done|]. cbn [no_space has_newline].
  intros [Hc Hs]%andb_true_iff. rewrite (IH Hs), orb_false_r.
  destruct (Ascii.eqb_spec c "010") as [->|]; done.
Qed.

Lemma no_space_app a b : no_space (a +:+ b) = no_space a && no_space b.
Proof.
  induction a as [|c a IH]; [done|]. rewrite app_cons. cbn [no_space].
  by rewrite IH, andb_assoc.
Qed.

Lemma is_token_no_space t : is_token t = true → no_space t = true.
Proof. by intros [_ ?]%andb_true_iff. Qed.

Lemma is_token_app t s : is_token t = true → no_space s = true → is_token (t +:+ s) = true.
Proof.
  unfold is_token. intros [Ht Hn]%andb_true_iff Hs. rewrite no_space_app, Hn, Hs.
  destruct t; [done|]. by rewrite app_cons.
Qed.

Lemma has_newline_scan_line s : has_newline (scan_line s).1.1 = false.
Proof.
  induction s as [|c s IH]; [done|]. cbn [scan_line].
  destruct (Ascii.eqb c "010") eqn:Hc; [done|].
  destruct (scan_line s) as [[l rest] at_eof]. cbn [fst has_newline] in *.
  by rewrite Hc, IH.
Qed.

Lemma has_newline_erase s : has_newline s = false → has_newline (erase_leading_space s) = false.
Proof.
  destruct s as [|c s]; [done|]. cbn [erase_leading_space].
  destruct (Ascii.eqb c " ") eqn:Hc; [|done]. cbn [has_newline].
  by intros [_ ?]%orb_false_iff.
Qed.

Lemma has_newline_uint d : has_newline (NilEmpty.string_of_uint d) = false.
Proof. induction d; done. Qed.

Lemma has_newline_show_int k : has_newline (show_int k) = false.
Proof.
  unfold show_int. destruct k as [|p|p]; [done|..];
    cbn [Z.to_int NilZero.string_of_int]; unfold NilZero.string_of_uint;
    destruct (Pos.to_uint p) eqn:Hd; try done; rewrite <- Hd;
    cbn [has_newline]; by rewrite ?has_newline_uint.
Qed.

Lemma scan_line_line l rest :
  has_newline l = false → scan_line (l +:+ nl +:+ rest) = (l, rest, false).
Proof.
  induction l as [|c l IH]; [done|]. cbn [has_newline]. rewrite app_cons.
  cbn [scan_line]. destruct (Ascii.eqb c "010"); [done|]. intros Hl.
  by rewrite (IH Hl).
Qed.

Lemma skipws_app_tail s c r x : skipws s = String c r → skipws (s +:+ x) = String c r +:+ x.
Proof.
  induction s as [|a s IH]; [done|]. rewrite app_cons. cbn [skipws].
  destruct (isspace a); [done|]. intros <-. by rewrite app_cons.
Qed.

Lemma is_tail_app r x : is_tail r = true → is_tail x = true → is_tail (r +:+ x) = true.
Proof. destruct r; [done|]. by rewrite app_cons. Qed.

Lemma next_token_app_tail s tok r x :
  next_token s = Some (tok, r) → is_tail x = true →
  next_token (s +:+ x) = Some (tok, r +:+ x).
Proof.
  unfold next_token. destruct (skipws s) as [|c r0] eqn:Hs; [done|].
  intros Htok Hx. change (Some (scan_token (String c r0)) = Some (tok, r)) in Htok.
  apply (inj Some) in Htok. rewrite (skipws_app_tail s c r0 x Hs), app_cons.
  change (Some (scan_token (String c (r0 +:+ x))) = Some (tok, r +:+ x)).
  pose proof (scan_token_app (String c r0)) as Happ.
  pose proof (scan_token_no_space (String c r0)) as Hno.
  pose proof (scan_token_tail (String c r0)) as Htail.
  rewrite Htok in Happ, Hno, Htail. cbn [fst snd] in Happ, Hno, Htail.
  rewrite <- app_cons, <- Happ, <- app_assoc. f_equal.
  apply scan_token_app_tail; [done|]. by apply is_tail_app.
Qed.

(** The shape of a Record: what [parse_line] stores on success. *)
Lemma parse_record_shape line e :
  parse_record line = Some e →
  ∃ date time,
    is_token date = true ∧ is_token time = true
    ∧ timestamp e = date +:+ " " +:+ time
    ∧ is_token (level e) = true ∧ is_token (service e) = true
    ∧ has_newline (message e) = false.
Proof.
  unfold parse_record. rewrite parse_line_unfold.
  destruct (next_token line) as [[date r1]|] eqn:H1; [|done].
  destruct (next_token r1) as [[time r2]|] eqn:H2; [|done].
  destruct (next_token r2) as [[lv r3]|] eqn:H3; [|done].
  destruct (next_token r3) as [[sv r4]|] eqn:H4; [|done].
  intros [= <-]. exists date, time. cbn [timestamp level service message].
  apply next_token_Some in H1 as [? _], H2 as [? _], H3 as [? _], H4 as [? _].
  split_and!; try done.
  apply has_newline_erase, has_newline_scan_line.
Qed.

(** X13.  Every Record [main] gets from a line is well formed: its
    [level] and [service] are non-empty and free of whitespace, its
    [timestamp] is two such words joined by one space, and its [message]
    has no newline character. *)
Theorem record_fields_well_formed (line : string) (e : LogEntry) :
  parse_record line = Some e →
  is_token (level e) = true
  ∧ is_token (service e) = true
  ∧ (∃ date time,
       timestamp e = date +:+ " " +:+ time
       ∧ is_token date = true ∧ is_token time = true)
  ∧ has_newline (message e) = false.
Proof.
  intros (date & time & Hd & Ht & Hts & Hl & Hs & Hm)%parse_record_shape.
  split_and!; try done. by exists date, time.
Qed.

Lemma record_fields_well_formed_witness :
  let line := "2024-01-01 10:00:00 INFO auth  user   logged in" in
  let e := mkLogEntry "2024-01-01 10:00:00" "INFO" "auth" " user   logged in" in
  parse_record line = Some e
  ∧ is_token (level e) = true
  ∧ is_token (service e) = true
  ∧ (∃ date time,
       timestamp e = date +:+ " " +:+ time
       ∧ is_token date = true ∧ is_token time = true)
  ∧ has_newline (message e) = false.
Proof.
  intros line e. split; [reflexivity|].
  exact (record_fields_well_formed line e eq_refl).
Defined.

(** X14.  Output read back.  A Record that came from a line is written
    as exactly one line, and parsing that line again gives a Record with
    the same [level] and [service], the old [timestamp] in brackets, and the
    same [message], with the worker annotation at its end if the line was
    written to the console. *)
Theorem written_line_parses_back (line : string) (e : LogEntry) (w : OutputWriter)
    (worker_id : Z) (st : streams) :
  parse_record line = Some e →
  ∃ l : string,
    delivered (get_target (target_ w) (write w e worker_id st).2)
    = inserted (get_target (target_ w) st) +:+ l +:+ nl
    ∧ has_newline l = false
    ∧ parse_record l
      = Some (mkLogEntry ("[" +:+ timestamp e +:+ "]") (level e) (service e)
                (message e +:+ (if target_is_cout w
                                then " (worker " +:+ show_int worker_id +:+ ")"
                                else ""))).
Proof.
  intros (date & time & Hd & Ht & Hts & Hl & Hs & Hm)%parse_record_shape.
  set (suffix := if target_is_cout w
                 then " (worker " +:+ show_int worker_id +:+ ")" else "").
  assert (Hsuf : has_newline suffix = false).
  { unfold suffix. destruct (target_is_cout w); [|done].
    rewrite !has_newline_app, has_newline_show_int. done. }
  assert (Hmsg : has_newline (" " +:+ message e +:+ suffix) = false).
  { by rewrite !has_newline_app, Hm, Hsuf. }
  exists (("[" +:+ date) +:+ " " +:+ (time +:+ "]") +:+ " " +:+ level e +:+ " "
          +:+ service e +:+ " " +:+ message e +:+ suffix).
  split_and!.
  - rewrite (proj1 (write_target w e worker_id st)). cbn [delivered].
    unfold rendered. fold suffix. rewrite Hts. by rewrite <- !app_assoc.
  - apply is_token_no_space, no_space_no_newline in Hl, Hs.
    assert (Hb : has_newline ("[" +:+ date) = false).
    { rewrite has_newline_app. by rewrite (no_space_no_newline date (is_token_no_space _ Hd)). }
    assert (Hc : has_newline (time +:+ "]") = false).
    { rewrite has_newline_app. by rewrite (no_space_no_newline time (is_token_no_space _ Ht)). }
    rewrite (has_newline_app ("[" +:+ date)), Hb.
    rewrite (has_newline_app " "), (has_newline_app (time +:+ "]")), Hc.
    rewrite (has_newline_app " "), (has_newline_app (level e)), Hl.
    rewrite (has_newline_app " "), (has_newline_app (service e)), Hs.
    by rewrite Hmsg.
  - unfold parse_record.
    pose proof (parse_line_pieces "" ("[" +:+ date) " " (time +:+ "]") " " (level e) " "
                  (service e) (" " +:+ message e +:+ suffix) LogEntry_default) as Hp.
    change (parse_line ?x LogEntry_default)
      with (parse_line ("" +:+ x) LogEntry_default).
    rewrite Hp; try done.
    + rewrite (scan_line_no_newline _ Hmsg). cbn [fst].
      rewrite <- !app_assoc. by rewrite Hts, <- !app_assoc.
    + apply (is_token_app "[" date); [done | by apply is_token_no_space].
    + by apply is_token_app.
Qed.

Lemma written_line_parses_back_witness :
  let line := "2024-01-01 10:00:00 INFO auth  user   logged in" in
  let e := mkLogEntry "2024-01-01 10:00:00" "INFO" "auth" " user   logged in" in
  let w := mkWriter (Some "out.log") to_file in
  let st := mkStreams ostream_new (mkOstream "" ("earlier" +:+ nl)) in
  parse_record line = Some e
  ∧ ∃ l : string,
      delivered (get_target (target_ w) (write w e 3 st).2)
      = inserted (get_target (target_ w) st) +:+ l +:+ nl
      ∧ has_newline l = false
      ∧ parse_record l
        = Some (mkLogEntry ("[" +:+ timestamp e +:+ "]") (level e) (service e)
                  (message e +:+ (if target_is_cout w
                                  then " (worker " +:+ show_int 3 +:+ ")"
                                  else ""))).
Proof.
  intros line e w st. split; [reflexivity|].
  exact (written_line_parses_back line e w 3 st eq_refl).
Defined.

(** X15.  [parse_line] reads one line only: on a text that has four
    tokens or more before its first newline character, everything from that
    newline on is ignored. *)
Theorem parse_line_stops_at_newline (line rest : string) (entry : LogEntry) :
  has_newline line = false →
  (4 ≤ length (tokens line))%nat →
  parse_line (line +:+ nl +:+ rest) entry = parse_line line entry.
Proof.
  intros Hnl Hlen.
  destruct (four_tokens line Hlen)
    as (date & r1 & time & r2 & lv & r3 & sv & r4 & H1 & H2 & H3 & H4 & _).
  assert (Hr4 : has_newline r4 = false).
  { eapply has_newline_next_token; [|exact H4].
    eapply has_newline_next_token; [|exact H3].
    eapply has_newline_next_token; [|exact H2].
    eapply has_newline_next_token; [exact Hnl | exact H1]. }
  assert (Hx : is_tail (nl +:+ rest) = true) by done.
  rewrite !parse_line_unfold.
  rewrite (next_token_app_tail _ _ _ _ H1 Hx), (next_token_app_tail _ _ _ _ H2 Hx),
    (next_token_app_tail _ _ _ _ H3 Hx), (next_token_app_tail _ _ _ _ H4 Hx).
  rewrite H1, H2, H3, H4.
  by rewrite (scan_line_line r4 rest Hr4), (scan_line_no_newline r4 Hr4).
Qed.

Lemma parse_line_stops_at_newline_witness :
  let line := "2024-01-01 10:00:00 INFO auth user logged in" in
  let rest := "2024-01-01 10:00:01 WARN db slow query" in
  has_newline line = false
  ∧ (4 ≤ length (tokens line))%nat
  ∧ parse_line (line +:+ nl +:+ rest) LogEntry_default = parse_line line LogEntry_default.
Proof.
  intros line rest.
  assert (Hlen : (4 ≤ length (tokens line))%nat) by (vm_compute; lia).
  split_and!; [reflexivity|exact Hlen|].
  exact (parse_line_stops_at_newline line rest LogEntry_default eq_refl Hlen).
Defined.

(** X16.  A writer built with a path that opens has the file for target
    and reports nothing: every line it writes goes to the file, after what
    the file held, without the worker annotation, and is flushed; the
    console is not touched; no [write] changes the target. *)
Theorem OutputWriter_file_target (can_open : string → bool) (path : string) :
  path ≠ "" → can_open path = true →
  let w := (OutputWriter_new can_open path).1 in
  let diag := (OutputWriter_new can_open path).2 in
  diag = []
  ∧ target_ w = to_file
  ∧ (∀ entry worker_id st,
       fout (write w entry worker_id st).2
       = mkOstream "" (inserted (fout st) +:+ "[" +:+ timestamp entry +:+ "] "
                       +:+ level entry +:+ " " +:+ service entry +:+ " "
                       +:+ message entry +:+ nl)
       ∧ cout (write w entry worker_id st).2 = cout st)
  ∧ (∀ calls st, target_ (write_all calls (w, st)).1 = to_file).
Proof.
  intros Hpath Hopen w diag. unfold w, diag.
  rewrite (OutputWriter_file can_open path Hpath Hopen). cbn [fst snd].
  split_and!; [done..| |].
  - intros entry worker_id st.
    destruct (write_target (mkWriter (Some path) to_file) entry worker_id st)
      as [Hd Hother].
    cbn [target_ get_target] in Hd, Hother. split; [|done].
    rewrite Hd. unfold rendered. by cbn [target_is_cout target_].
  - intros calls st. by rewrite write_all_writer.
Qed.

Lemma OutputWriter_file_target_witness :
  let can_open := λ p : string, String.eqb p "/data/out.log" in
  let path := "/data/out.log" in
  let w := (OutputWriter_new can_open path).1 in
  let diag := (OutputWriter_new can_open path).2 in
  path ≠ "" ∧ can_open path = true
  ∧ diag = []
  ∧ target_ w = to_file
  ∧ (∀ entry worker_id st,
       fout (write w entry worker_id st).2
       = mkOstream "" (inserted (fout st) +:+ "[" +:+ timestamp entry +:+ "] "
                       +:+ level entry +:+ " " +:+ service entry +:+ " "
                       +:+ message entry +:+ nl)
       ∧ cout (write w entry worker_id st).2 = cout st)
  ∧ (∀ calls st, target_ (write_all calls (w, st)).1 = to_file).
Proof.
  intros can_open path w diag.
  assert (Hpath : path ≠ "") by done.
  split_and!; [exact Hpath|reflexivity|..];
    apply (OutputWriter_file_target can_open path Hpath eq_refl).
Defined.

End record_facts.
